(** * MI-MAC simulation: a shallow embedding of [mi_mac_sim.py]

    The development follows the Python module top to bottom: the module-level
    parameters, [schedule_attempts] (the arrival generator) and
    [run_simulation] (protocol walker, ledger, accumulator and driver).

    Conventions of the embedding.
    - A Python [float] (and a cell of a [np.zeros] array) is an exact rational
      of type [Q]; decimal literals are the source's.  Equalities between
      computed totals are stated up to [Qeq] where the two sides differ only
      by the representation of a fraction.
    - Node indices come from [range(N)] and are natural numbers; the counter
      [attempts_done] is a natural number.
    - A dict with a fixed set of keys is a record, the ['type'] tag of a
      transmission is an enumeration.
    - A Python exception is an outcome [Raise e]; loops whose exit depends on
      random draws take fuel and answer [OutOfFuel] when it is exhausted.
    - Rounding of float operations is not modelled: arithmetic is exact.
    - The two random generators used by the module ([np.random] and [random])
      are explicit: each is an infinite sequence of draws with a cursor. *)

From Stdlib Require Import QArith Qminmax Lqa Lia List String Sorted Permutation.
From stdpp Require Import base option list gmap strings.

Open Scope Q_scope.

(** ** Outcomes: normal return, Python exception, or fuel exhausted *)

Inductive exn : Type := ZeroDivisionError | ValueError | IndexError.

Inductive outcome (A : Type) : Type :=
| Ret (a : A)
| Raise (e : exn)
| OutOfFuel.

Arguments Ret {A} a.
Arguments Raise {A} e.
Arguments OutOfFuel {A}.

#[global] Instance outcome_ret : MRet outcome := fun A a => Ret a.

#[global] Instance outcome_bind : MBind outcome := fun A B f m =>
  match m with
  | Ret a => f a
  | Raise e => Raise e
  | OutOfFuel => OutOfFuel
  end.

(** ** Module-level parameters (lines 15-41) *)

(** [N], [sim_time] and [lambda_rate] are the globals that size the run; they
    are read by [run_simulation] and passed to [schedule_attempts], so the
    embedding threads them as a record. *)
Record params : Type := {
  N : nat;            (* number of nodes *)
  sim_time : Q;       (* total simulation time (ms) *)
  lambda_rate : Q     (* message generation rate per ms per node *)
}.

Definition module_params : params :=
  {| N := 10; sim_time := 200.0; lambda_rate := 0.02 |}.

Definition Vcc : Q := 3.3.

(* Durations (ms) *)
Definition tau_txW : Q := 1.0.
Definition tau_txAck : Q := 0.7.
Definition tau_txData : Q := 3.0.
Definition tau_sense : Q := 0.5.
Definition tau_safe : Q := 0.3.
Definition tau_noAck : Q := tau_txW + tau_txAck + tau_safe.

(* Currents (Amperes) *)
Definition I_idle : Q := 60e-6.
Definition I_receive : Q := 0.49e-3.
Definition I_sense : Q := 0.74e-3.
Definition I_tx_low : Q := 220e-3.
Definition I_tx_high : Q := 528e-3.

(* Packet sizes (bytes) *)
Definition size_W : Z := 13.
Definition size_ACK : Z := 9.
Definition size_DATA : Z := 24.

Definition configs : list string := ["config1"; "config2"; "config3"]%string.

(** ** Data *)

(** An entry of [attempts]: [{'node': .., 'time': .., 'target': ..}]. *)
Record attempt : Type := {
  a_node : nat;
  a_time : Q;
  a_target : nat
}.

Inductive ttype : Type := W | ACK | DATA.

Definition is_W (ty : ttype) : bool :=
  match ty with W => true | _ => false end.

(** An entry of [transmissions]. *)
Record transmission : Type := {
  tr_start : Q;
  tr_end : Q;
  tr_sender : nat;
  tr_target : nat;
  tr_type : ttype
}.

(** The locals of [run_simulation] that the loop over attempts mutates. *)
Record state : Type := {
  transmissions : list transmission;
  energy : list Q;
  bytes_sent : list Q;
  bytes_success : list Q;
  attempts_done : nat
}.

(** The [DataFrame] built at lines 142-147. *)
Record dataframe : Type := {
  df_node : list nat;
  df_energy_J : list Q;
  df_bytes_sent : list Q;
  df_bytes_success : list Q
}.

(** What [run_simulation] returns: [(df, total_throughput_bytes, attempts_done)]. *)
Record run_result : Type := {
  df : dataframe;
  total_throughput_bytes : Q;
  res_attempts_done : nat
}.

(** ** Random sources *)

Record rng : Type := {
  exp_src : nat -> Q;        (* standard exponential variates of np.random *)
  exp_pos : nat;
  choice_src : nat -> nat;   (* raw draws of random *)
  choice_pos : nat
}.

(** [1.0 / lam] on Python floats. *)
Definition py_div (x y : Q) : outcome Q :=
  if Qeq_bool y 0 then Raise ZeroDivisionError else Ret (x / y).

(** [np.random.exponential(scale)]: rejects a negative scale, otherwise
    scales the next standard variate. *)
Definition exponential (scale : Q) (g : rng) : outcome (Q * rng) :=
  if QMicromega.Qlt_bool scale 0 then Raise ValueError
  else Ret (scale * exp_src g (exp_pos g),
            {| exp_src := exp_src g; exp_pos := S (exp_pos g);
               choice_src := choice_src g; choice_pos := choice_pos g |}).

(** [random.choice(seq)]: [seq[randbelow(len(seq))]], [IndexError] on an
    empty sequence. *)
Definition choice {A : Type} (seq : list A) (g : rng) : outcome (A * rng) :=
  match seq !! (choice_src g (choice_pos g) mod length seq)%nat with
  | None => Raise IndexError
  | Some x =>
      Ret (x, {| exp_src := exp_src g; exp_pos := exp_pos g;
                 choice_src := choice_src g; choice_pos := S (choice_pos g) |})
  end.

(** ** [schedule_attempts] (lines 44-57) *)

(** [[x for x in range(N) if x != node]] *)
Definition others (N node : nat) : list nat :=
  List.filter (fun x => negb (x =? node)%nat) (seq 0 N).

(** The [while t < sim_time] loop of one node. *)
Fixpoint arrivals (fuel N node : nat) (sim_time lam t : Q)
    (attempts : list attempt) (g : rng) : outcome (list attempt * rng) :=
  if QMicromega.Qlt_bool t sim_time then
    match fuel with
    | O => OutOfFuel
    | S fuel' =>
        scale ← py_div 1.0 lam;
        '(isi, g1) ← exponential scale g;
        let t1 := t + isi in
        if Qle_bool sim_time t1 then Ret (attempts, g1)      (* break *)
        else
          '(target, g2) ← choice (others N node) g1;
          arrivals fuel' N node sim_time lam t1
            (attempts ++ [{| a_node := node; a_time := t1; a_target := target |}]) g2
    end
  else Ret (attempts, g).

(** The [for node in range(N)] loop. *)
Fixpoint for_nodes (fuel N : nat) (nodes : list nat) (sim_time lam : Q)
    (attempts : list attempt) (g : rng) : outcome (list attempt * rng) :=
  match nodes with
  | [] => Ret (attempts, g)
  | node :: rest =>
      '(attempts1, g1) ← arrivals fuel N node sim_time lam 0.0 attempts g;
      for_nodes fuel N rest sim_time lam attempts1 g1
  end.

(** [attempts.sort(key=lambda x: x['time'])]: a stable ascending sort. *)
Fixpoint insert_by_time (a : attempt) (l : list attempt) : list attempt :=
  match l with
  | [] => [a]
  | b :: l' =>
      if Qle_bool (a_time a) (a_time b) then a :: b :: l'
      else b :: insert_by_time a l'
  end.

Fixpoint sort_by_time (l : list attempt) : list attempt :=
  match l with
  | [] => []
  | a :: l' => insert_by_time a (sort_by_time l')
  end.

Definition schedule_attempts (fuel N : nat) (sim_time lam : Q) (g : rng)
    : outcome (list attempt * rng) :=
  '(attempts, g1) ← for_nodes fuel N (seq 0 N) sim_time lam [] g;
  Ret (sort_by_time attempts, g1).

(** ** [run_simulation] (lines 60-149) *)

(** [arr[i] += c] on a numpy array: [IndexError] when [i] is out of bounds. *)
Definition iadd (arr : list Q) (i : nat) (c : Q) : outcome (list Q) :=
  match arr !! i with
  | Some x => Ret (<[i := x + c]> arr)
  | None => Raise IndexError
  end.

(** The three per-configuration selections (lines 80-85, 109-112, 122-127).
    Each returns the pair in the order the source assigns it. *)
Definition wakeup_choice (config_name : string) : Q * Q :=
  if String.eqb config_name "config1" then (tau_txW * 3.0, I_tx_low)
  else if String.eqb config_name "config2" then (tau_txW, I_tx_high)
  else (tau_txW * 3.0, I_tx_high).                              (* hybrid *)

Definition ack_choice (config_name : string) : Q * Q :=
  if String.eqb config_name "config2" then (I_tx_high, tau_txAck)
  else (I_tx_low, tau_txAck).

Definition data_choice (config_name : string) : Q * Q :=
  if String.eqb config_name "config1" then (tau_txData * 3.0, I_tx_low)
  else if String.eqb config_name "config2" then (tau_txData, I_tx_high)
  else (tau_txData, I_tx_low).

(** The test of line 96. *)
Definition overlaps (tr : transmission) (W_start W_end : Q) : bool :=
  negb (Qle_bool (tr_end tr) W_start || Qle_bool W_end (tr_start tr)).

(** The scan of lines 93-98 over a list of ledger entries; returning [true]
    at the first hit is the [break]. *)
Fixpoint scan (trs : list transmission) (target : nat) (W_start W_end : Q) : bool :=
  match trs with
  | [] => false
  | tr :: rest =>
      if (tr_target tr =? target)%nat && is_W (tr_type tr) then
        if overlaps tr W_start W_end then true
        else scan rest target W_start W_end
      else scan rest target W_start W_end
  end.

(** The ledger once the wake-up record of [a] is appended (line 88). *)
Definition wakeup_record (config_name : string) (a : attempt) : transmission :=
  let time := a_time a + tau_sense in
  let W_dur := fst (wakeup_choice config_name) in
  {| tr_start := time; tr_end := time + W_dur;
     tr_sender := a_node a; tr_target := a_target a; tr_type := W |}.

(** The value of [collided] after lines 93-98, given the ledger as it stands
    at that point: the scan runs over [transmissions[:-1]]. *)
Definition collision_check (ledger : list transmission) (target : nat)
    (W_start W_end : Q) : bool :=
  scan (removelast ledger) target W_start W_end.

(** One iteration of [for a in attempts] (lines 69-136). *)
Definition step (config_name : string) (st : state) (a : attempt) : outcome state :=
  let sender := a_node a in
  let target := a_target a in
  let start_time := a_time a in
  let time := start_time in
  (* Sense channel *)
  let time := time + tau_sense in
  en ← iadd (energy st) sender ((I_sense * Vcc) * tau_sense / 1000.0);
  en ← iadd en target ((I_receive * Vcc) * (tau_sense / 2.0) / 1000.0);
  (* Transmit WakeUp *)
  let '(W_dur, I_tx) := wakeup_choice config_name in
  let W_start := time in
  let W_end := time + W_dur in
  let trs := transmissions st ++
    [{| tr_start := W_start; tr_end := W_end;
        tr_sender := sender; tr_target := target; tr_type := W |}] in
  en ← iadd en sender ((I_tx * Vcc) * (W_dur / 1000.0));
  let time := W_end in
  (* Check collision *)
  let collided := collision_check trs target W_start W_end in
  if collided then
    en ← iadd en sender ((I_idle * Vcc) * (tau_noAck / 1000.0));
    bs ← iadd (bytes_sent st) sender (inject_Z size_W);
    Ret {| transmissions := trs; energy := en; bytes_sent := bs;
           bytes_success := bytes_success st;
           attempts_done := attempts_done st + 1 |}
  else
    en ← iadd en target ((I_receive * Vcc) * (W_dur / 1000.0));
    (* ACK transmission *)
    let '(ack_I, ack_dur) := ack_choice config_name in
    let ACK_start := time + 0.1 in
    let ACK_end := ACK_start + ack_dur in
    let trs := trs ++
      [{| tr_start := ACK_start; tr_end := ACK_end;
          tr_sender := target; tr_target := sender; tr_type := ACK |}] in
    en ← iadd en target ((ack_I * Vcc) * (ack_dur / 1000.0));
    en ← iadd en sender ((I_receive * Vcc) * (ack_dur / 1000.0));
    let time := ACK_end in
    (* Data transmission *)
    let '(data_dur, data_I) := data_choice config_name in
    let DATA_start := time + 0.05 in
    let DATA_end := DATA_start + data_dur in
    let trs := trs ++
      [{| tr_start := DATA_start; tr_end := DATA_end;
          tr_sender := sender; tr_target := target; tr_type := DATA |}] in
    en ← iadd en sender ((data_I * Vcc) * (data_dur / 1000.0));
    en ← iadd en target ((I_receive * Vcc) * (data_dur / 1000.0));
    bs ← iadd (bytes_sent st) sender (inject_Z (size_W + size_ACK + size_DATA));
    bd ← iadd (bytes_success st) sender (inject_Z size_DATA);
    Ret {| transmissions := trs; energy := en; bytes_sent := bs;
           bytes_success := bd;
           attempts_done := attempts_done st + 1 |}.

(** The whole [for a in attempts] loop. *)
Fixpoint walk (config_name : string) (st : state) (attempts : list attempt)
    : outcome state :=
  match attempts with
  | [] => Ret st
  | a :: rest => st1 ← step config_name st a; walk config_name st1 rest
  end.

(** Lines 62-66: empty ledger, [np.zeros(N)] three times, counter at zero. *)
Definition init_state (N : nat) : state :=
  {| transmissions := [];
     energy := repeat 0 N;
     bytes_sent := repeat 0 N;
     bytes_success := repeat 0 N;
     attempts_done := 0 |}.

(** Lines 138-140: the baseline idle energy, [for n in range(N)]. *)
Definition baseline_charge (sim_time : Q) : Q :=
  (I_idle * Vcc) * (sim_time / 1000.0).

Fixpoint add_baseline (nodes : list nat) (sim_time : Q) (en : list Q)
    : outcome (list Q) :=
  match nodes with
  | [] => Ret en
  | n :: rest => en1 ← iadd en n (baseline_charge sim_time);
                 add_baseline rest sim_time en1
  end.

(** [df['bytes_success'].sum()] *)
Definition column_sum (col : list Q) : Q := fold_left Qplus col 0.

Definition run_simulation (fuel : nat) (p : params) (config_name : string)
    (g : rng) : outcome (run_result * rng) :=
  '(attempts, g1) ← schedule_attempts fuel (N p) (sim_time p) (lambda_rate p) g;
  st ← walk config_name (init_state (N p)) attempts;
  en ← add_baseline (seq 0 (N p)) (sim_time p) (energy st);
  let df := {| df_node := seq 0 (N p); df_energy_J := en;
               df_bytes_sent := bytes_sent st;
               df_bytes_success := bytes_success st |} in
  let total_throughput_bytes := column_sum (df_bytes_success df) in
  Ret ({| df := df; total_throughput_bytes := total_throughput_bytes;
          res_attempts_done := attempts_done st |}, g1).

(** ** Derived views used in the statements *)

(** The array after [arr[i] += c] when the index is in bounds. *)
Definition add_at (arr : list Q) (i : nat) (c : Q) : list Q :=
  alter (fun x => x + c) i arr.

(** The value the local [collided] holds at line 100 in the iteration that
    processes [a] from state [st]: the wake-up record is on the ledger when
    the check runs. *)
Definition collided (config_name : string) (st : state) (a : attempt) : bool :=
  let w := wakeup_record config_name a in
  collision_check (transmissions st ++ [w]) (a_target a) (tr_start w) (tr_end w).

(** The acknowledgment and data records of lines 116 and 131. *)
Definition ack_record (config_name : string) (a : attempt) : transmission :=
  let ACK_start := tr_end (wakeup_record config_name a) + 0.1 in
  {| tr_start := ACK_start; tr_end := ACK_start + snd (ack_choice config_name);
     tr_sender := a_target a; tr_target := a_node a; tr_type := ACK |}.

Definition data_record (config_name : string) (a : attempt) : transmission :=
  let DATA_start := tr_end (ack_record config_name a) + 0.05 in
  {| tr_start := DATA_start; tr_end := DATA_start + fst (data_choice config_name);
     tr_sender := a_node a; tr_target := a_target a; tr_type := DATA |}.

(** The energy array after the sense and wake-up phases (lines 76, 77, 89). *)
Definition energy_after_wakeup (config_name : string) (en : list Q) (a : attempt)
    : list Q :=
  let '(W_dur, I_tx) := wakeup_choice config_name in
  add_at (add_at (add_at en (a_node a) ((I_sense * Vcc) * tau_sense / 1000.0))
            (a_target a) ((I_receive * Vcc) * (tau_sense / 2.0) / 1000.0))
    (a_node a) ((I_tx * Vcc) * (W_dur / 1000.0)).

(** The energy array after the remaining phases of a completed attempt
    (lines 106, 117, 118, 132, 133). *)
Definition energy_after_data (config_name : string) (en : list Q) (a : attempt)
    : list Q :=
  let '(W_dur, _) := wakeup_choice config_name in
  let '(ack_I, ack_dur) := ack_choice config_name in
  let '(data_dur, data_I) := data_choice config_name in
  add_at (add_at (add_at (add_at (add_at en
    (a_target a) ((I_receive * Vcc) * (W_dur / 1000.0)))
    (a_target a) ((ack_I * Vcc) * (ack_dur / 1000.0)))
    (a_node a) ((I_receive * Vcc) * (ack_dur / 1000.0)))
    (a_node a) ((data_I * Vcc) * (data_dur / 1000.0)))
    (a_target a) ((I_receive * Vcc) * (data_dur / 1000.0)).

(** The state an iteration ends in when no index is out of bounds. *)
Definition next_state (config_name : string) (st : state) (a : attempt) : state :=
  let en := energy_after_wakeup config_name (energy st) a in
  let trs := transmissions st ++ [wakeup_record config_name a] in
  if collided config_name st a then
    {| transmissions := trs;
       energy := add_at en (a_node a) ((I_idle * Vcc) * (tau_noAck / 1000.0));
       bytes_sent := add_at (bytes_sent st) (a_node a) (inject_Z size_W);
       bytes_success := bytes_success st;
       attempts_done := attempts_done st + 1 |}
  else
    {| transmissions :=
         (trs ++ [ack_record config_name a]) ++ [data_record config_name a];
       energy := energy_after_data config_name en a;
       bytes_sent := add_at (bytes_sent st) (a_node a)
                       (inject_Z (size_W + size_ACK + size_DATA));
       bytes_success := add_at (bytes_success st) (a_node a) (inject_Z size_DATA);
       attempts_done := attempts_done st + 1 |}.

(** Ledger entries tagged ['W']. *)
Definition is_wakeup (tr : transmission) : bool := is_W (tr_type tr).

(** The generators after one draw. *)
Definition advance_choice (g : rng) : rng :=
  {| exp_src := exp_src g; exp_pos := exp_pos g;
     choice_src := choice_src g; choice_pos := S (choice_pos g) |}.

Definition advance_exp (g : rng) : rng :=
  {| exp_src := exp_src g; exp_pos := S (exp_pos g);
     choice_src := choice_src g; choice_pos := choice_pos g |}.

(** The running sum of [j] consecutive scaled draws, from time [t] and cursor
    [k]: the value of [t] in the [while] loop after [j] iterations. *)
Fixpoint cumul (scale : Q) (src : nat -> Q) (k : nat) (t : Q) (j : nat) : Q :=
  match j with
  | O => t
  | S j' => cumul scale src (S k) (t + scale * src k) j'
  end.

(** A renewal stream truncated at the horizon: [times] are the first running
    sums of the draws from some cursor, all below [T]; the next running sum,
    the overshoot, is at or past [T] and is not in the list. *)
Definition renewal_of (T scale : Q) (src : nat -> Q) (times : list Q) : Prop :=
  exists k m,
    times = map (fun j => cumul scale src k 0.0 (S j)) (seq 0 m) /\
    Forall (fun x => x < T) times /\
    (0.0 < T -> T <= cumul scale src k 0.0 (S m)).

(** The attempts of one node. *)
Definition by_node (node : nat) (l : list attempt) : list attempt :=
  List.filter (fun a => (a_node a =? node)%nat) l.

(** What the generator guarantees of each attempt it keeps. *)
Definition valid_attempt (N : nat) (T : Q) (a : attempt) : Prop :=
  (a_node a < N)%nat /\ In (a_target a) (others N (a_node a)) /\
  (a_target a < N)%nat /\ a_target a <> a_node a /\ a_time a < T.

Definition time_le (a b : attempt) : Prop := a_time a <= a_time b.

(** The marks [collided] takes along the loop over [attempts] from [st]. *)
Fixpoint marks (config_name : string) (st : state) (attempts : list attempt)
    : list bool :=
  match attempts with
  | [] => []
  | a :: rest =>
      collided config_name st a ::
      match step config_name st a with
      | Ret st1 => marks config_name st1 rest
      | _ => []
      end
  end.

Definition collided_count (config_name : string) (st : state)
    (attempts : list attempt) : nat :=
  length (List.filter (fun b => b) (marks config_name st attempts)).

Definition completed_count (config_name : string) (st : state)
    (attempts : list attempt) : nat :=
  length (List.filter negb (marks config_name st attempts)).

(** Ledger entries tagged ['DATA']. *)
Definition is_data (tr : transmission) : bool :=
  match tr_type tr with DATA => true | _ => false end.

(** The sum of [f n] over the nodes [n] of a list. *)
Fixpoint sum_over (nodes : list nat) (f : nat -> Q) : Q :=
  match nodes with
  | [] => 0
  | n :: rest => f n + sum_over rest f
  end.

(** Lines 142-149 applied to the state the loop over attempts ends in, with
    the baseline added to every energy cell. *)
Definition result_of (p : params) (st : state) : run_result :=
  {| df := {| df_node := seq 0 (N p);
              df_energy_J :=
                map (fun e => e + baseline_charge (sim_time p)) (energy st);
              df_bytes_sent := bytes_sent st;
              df_bytes_success := bytes_success st |};
     total_throughput_bytes := column_sum (bytes_success st);
     res_attempts_done := attempts_done st |}.

(** Cell by cell, no total of [st'] is below the one of [st]. *)
Definition totals_le (st st' : state) : Prop :=
  Forall2 Qle (energy st) (energy st') /\
  Forall2 Qle (bytes_sent st) (bytes_sent st') /\
  Forall2 Qle (bytes_success st) (bytes_success st').

Definition totals_nonneg (st : state) : Prop :=
  Forall (Qle 0) (energy st) /\ Forall (Qle 0) (bytes_sent st) /\
  Forall (Qle 0) (bytes_success st).

(** All three accumulator arrays have one cell per node. *)
Definition sized (n : nat) (st : state) : Prop :=
  length (energy st) = n /\ length (bytes_sent st) = n /\
  length (bytes_success st) = n.

(** Both indices of an attempt are node indices. *)
Definition in_range (n : nat) (a : attempt) : Prop :=
  (a_node a < n)%nat /\ (a_target a < n)%nat.

(** ** The script's loop over configurations (lines 151-155) *)

(** [for cfg in configs: ... results[cfg] = {...}]: the dict is keyed by the
    configuration name and its value carries the three components of the
    tuple [run_simulation] returned.  The generators are global, so each run
    starts where the previous one left them. *)
Fixpoint run_configs (fuel : nat) (p : params) (cfgs : list string)
    (results : gmap string run_result) (g : rng)
    : outcome (gmap string run_result * rng) :=
  match cfgs with
  | [] => Ret (results, g)
  | cfg :: rest =>
      '(r, g1) ← run_simulation fuel p cfg g;
      run_configs fuel p rest (<[cfg := r]> results) g1
  end.

Definition run_all (fuel : nat) (p : params) (g : rng)
    : outcome (gmap string run_result * rng) :=
  run_configs fuel p configs ∅ g.

(** ** Further views used in the statements *)

(** Two attempts aim at the same target with start times less than [W_dur]
    apart. *)
Definition close_in_time (W_dur : Q) (a b : attempt) : Prop :=
  a_target b = a_target a /\
  a_time a - W_dur < a_time b /\ a_time b < a_time a + W_dur.



(** The node takes no part in the attempt. *)
Definition uninvolved (m : nat) (a : attempt) : Prop :=
  a_node a <> m /\ a_target a <> m.

(** Of the bytes a node sent, at most the payload share was delivered:
    [(size_W + size_ACK + size_DATA) * delivered <= size_DATA * sent]. *)
Definition goodput_bounded (d s : Q) : Prop :=
  inject_Z (size_W + size_ACK + size_DATA) * d <= inject_Z size_DATA * s.

(** The charges of one attempt, as the source computes them. *)
Definition sense_charge : Q := (I_sense * Vcc) * tau_sense / 1000.0.
Definition sense_rx_charge : Q := (I_receive * Vcc) * (tau_sense / 2.0) / 1000.0.
Definition timeout_charge : Q := (I_idle * Vcc) * (tau_noAck / 1000.0).
Definition wakeup_tx_charge (config_name : string) : Q :=
  let '(W_dur, I_tx) := wakeup_choice config_name in (I_tx * Vcc) * (W_dur / 1000.0).
Definition wakeup_rx_charge (config_name : string) : Q :=
  let '(W_dur, _) := wakeup_choice config_name in (I_receive * Vcc) * (W_dur / 1000.0).
Definition ack_tx_charge (config_name : string) : Q :=
  let '(ack_I, ack_dur) := ack_choice config_name in (ack_I * Vcc) * (ack_dur / 1000.0).
Definition ack_rx_charge (config_name : string) : Q :=
  let '(_, ack_dur) := ack_choice config_name in (I_receive * Vcc) * (ack_dur / 1000.0).
Definition data_tx_charge (config_name : string) : Q :=
  let '(data_dur, data_I) := data_choice config_name in (data_I * Vcc) * (data_dur / 1000.0).
Definition data_rx_charge (config_name : string) : Q :=
  let '(data_dur, _) := data_choice config_name in (I_receive * Vcc) * (data_dur / 1000.0).

(** ** Sample inputs *)

(** A deterministic pair of generators: standard variates 1/2, 1, 3/2, ...
    and raw choice draws 0, 7, 14, ... *)
Definition sample_rng : rng :=
  {| exp_src := fun k => inject_Z (Z.of_nat (S k)) / 2; exp_pos := 0;
     choice_src := fun k => (7 * k)%nat; choice_pos := 0 |}.

Definition sample_params : params :=
  {| N := 3; sim_time := 200.0; lambda_rate := 0.02 |}.

(** Two attempts to node 1 whose wake-up windows overlap under config1
    ([5.5, 8.5) and [6.5, 9.5)), and the state after the first. *)
Definition sample_a1 : attempt := {| a_node := 0; a_time := 5.0; a_target := 1 |}.
Definition sample_a2 : attempt := {| a_node := 2; a_time := 6.0; a_target := 1 |}.
Definition sample_st1 : state := next_state "config1" (init_state 3) sample_a1.

(** An attempt whose destination is not a node of a three-node run, and a
    short horizon under which only node 0 gets an attempt in. *)
Definition sample_stray : attempt := {| a_node := 0; a_time := 7.0; a_target := 5 |}.
Definition short_params : params :=
  {| N := 3; sim_time := 30.0; lambda_rate := 0.02 |}.

(** * Properties *)

(** ** The outcome monad *)

Lemma bind_Ret {A B : Type} (m : outcome A) (f : A -> outcome B) (b : B) :
  m ≫= f = Ret b -> exists a, m = Ret a /\ f a = Ret b.
Proof. destruct m as [a| |]; simpl; intros H; [eauto | discriminate..]. Qed.

(** ** Arrays *)

Lemma length_add_at arr i c : length (add_at arr i c) = length arr.
Proof. apply length_alter. Qed.

Lemma iadd_Ret arr i c :
  (i < length arr)%nat -> iadd arr i c = Ret (add_at arr i c).
Proof.
  intros Hi. unfold iadd, add_at.
  destruct (lookup_lt_is_Some_2 arr i Hi) as [x Hx]. rewrite Hx. f_equal.
  apply list_eq. intros j. destruct (decide (i = j)) as [->|Hne].
  - rewrite list_lookup_insert_eq, list_lookup_alter_eq, Hx by done. done.
  - rewrite list_lookup_insert_ne, list_lookup_alter_ne by done. done.
Qed.

Lemma iadd_inv arr i c arr' :
  iadd arr i c = Ret arr' -> (i < length arr)%nat /\ arr' = add_at arr i c.
Proof.
  intros H. assert (Hi : (i < length arr)%nat).
  { unfold iadd in H. destruct (arr !! i) eqn:E; [|discriminate].
    eapply lookup_lt_Some; eauto. }
  split; [done|]. rewrite iadd_Ret in H by done. congruence.
Qed.

Lemma iadd_Raise arr i c :
  (length arr <= i)%nat -> iadd arr i c = Raise IndexError.
Proof. intros Hi. unfold iadd. by rewrite lookup_ge_None_2. Qed.

Lemma lookup_add_at_eq arr i c x :
  arr !! i = Some x -> add_at arr i c !! i = Some (x + c).
Proof. intros Hx. unfold add_at. by rewrite list_lookup_alter_eq, Hx. Qed.

Lemma lookup_add_at_ne arr i j c :
  i <> j -> add_at arr i c !! j = arr !! j.
Proof. intros Hne. unfold add_at. by rewrite list_lookup_alter_ne. Qed.

(** ** One iteration of the walker *)

Section Walker.

(** The configuration of the run and the number of nodes are fixed. *)
Variable cfg : string.
Variable n : nat.

Lemma step_next_state st a :
  sized n st -> in_range n a -> step cfg st a = Ret (next_state cfg st a).
Proof.
  intros (He & Hs & Hd) [Hn Ht].
  unfold step, next_state, collided, energy_after_wakeup, energy_after_data.
  unfold data_record. unfold ack_record. unfold wakeup_record.
  destruct (wakeup_choice cfg) as [W_dur I_tx].
  destruct (ack_choice cfg) as [ack_I ack_dur].
  destruct (data_choice cfg) as [data_dur data_I].
  cbn [tr_start tr_end fst snd].
  repeat (rewrite iadd_Ret by (rewrite ?length_add_at; lia); cbn [mbind outcome_bind]).
  destruct (collision_check _ _ _ _);
    repeat (rewrite iadd_Ret by (rewrite ?length_add_at; lia); cbn [mbind outcome_bind]);
    reflexivity.
Qed.

Lemma step_Ret_inv st a st' :
  sized n st -> step cfg st a = Ret st' ->
  in_range n a /\ st' = next_state cfg st a.
Proof.
  intros Hsz H. assert (Hr : in_range n a).
  { destruct Hsz as (He & _). unfold step in H.
    apply bind_Ret in H as (en1 & H1 & H).
    apply bind_Ret in H as (en2 & H2 & _).
    apply iadd_inv in H1 as [H1 ->]. apply iadd_inv in H2 as [H2 _].
    rewrite length_add_at in H2. split; lia. }
  split; [done|]. rewrite step_next_state in H by done. congruence.
Qed.

(** An index outside [range(N)] raises at line 76 or 77, before anything is
    appended to the ledger. *)
Lemma step_out_of_range st a :
  sized n st -> ~ in_range n a -> step cfg st a = Raise IndexError.
Proof.
  intros (He & _) Hr. unfold step.
  destruct (decide (a_node a < n)%nat) as [Hn|Hn].
  - rewrite (iadd_Ret (energy st)) by lia. cbn [mbind outcome_bind].
    rewrite (iadd_Raise (add_at (energy st) _ _)); [done|].
    rewrite length_add_at. unfold in_range in Hr. lia.
  - rewrite (iadd_Raise (energy st)) by lia. done.
Qed.

Lemma next_state_sized st a : sized n st -> sized n (next_state cfg st a).
Proof.
  intros (He & Hs & Hd). unfold next_state, sized, energy_after_wakeup, energy_after_data.
  destruct (wakeup_choice cfg), (ack_choice cfg), (data_choice cfg).
  destruct (collided cfg st a); cbn [energy bytes_sent bytes_success];
    rewrite ?length_add_at; auto.
Qed.

(** ** The collision detector *)

Lemma overlaps_iff tr W_start W_end :
  overlaps tr W_start W_end = true <->
  ~ (tr_end tr <= W_start \/ tr_start tr >= W_end).
Proof.
  unfold overlaps. rewrite negb_true_iff, orb_false_iff.
  rewrite <- !not_true_iff_false, !Qle_bool_iff. tauto.
Qed.

Lemma scan_true_iff trs target W_start W_end :
  scan trs target W_start W_end = true <->
  exists tr, In tr trs /\ tr_target tr = target /\ tr_type tr = W /\
             overlaps tr W_start W_end = true.
Proof.
  induction trs as [|tr rest IH]; simpl.
  - split; [discriminate | intros (? & [] & _)].
  - destruct (Nat.eqb_spec (tr_target tr) target) as [Ht|Ht];
      destruct (tr_type tr) eqn:Hty; simpl;
      try (rewrite IH; split;
           [ intros (x & Hin & Hx); exists x; tauto
           | intros (x & [<-|Hin] & Hx1 & Hx2 & Hx3);
             [ congruence | exists x; tauto ] ]).
    destruct (overlaps tr W_start W_end) eqn:Hov.
    + split; [intros _; exists tr; tauto | done].
    + rewrite IH; split.
      * intros (x & Hin & Hx); exists x; tauto.
      * intros (x & [<-|Hin] & Hx1 & Hx2 & Hx3); [congruence | exists x; tauto].
Qed.

Lemma collision_check_app_last trs w target W_start W_end :
  collision_check (trs ++ [w]) target W_start W_end = scan trs target W_start W_end.
Proof. unfold collision_check. by rewrite removelast_last. Qed.

(** The entries of [trs ++ [w]] at a position other than the last are the
    entries of [trs]. *)
Lemma other_entries {A : Type} (trs : list A) (w x : A) :
  In x trs <-> exists i, (trs ++ [w]) !! i = Some x /\ i <> length trs.
Proof.
  split.
  - intros Hin. apply list_elem_of_In, list_elem_of_lookup in Hin as [i Hi].
    exists i. pose proof (lookup_lt_Some _ _ _ Hi).
    split; [by rewrite lookup_app_l | lia].
  - intros (i & Hi & Hne). apply list_elem_of_In, list_elem_of_lookup. exists i.
    destruct (decide (i < length trs)%nat) as [Hlt|Hge].
    + by rewrite lookup_app_l in Hi.
    + apply lookup_lt_Some in Hi. rewrite length_app in Hi. simpl in Hi. lia.
Qed.

(** C1. For an attempt processed from any ledger, the wake-up record is on the
    ledger when the collision check runs (the iteration returns a ledger that
    extends the old one with that record first), and the attempt is marked
    collided exactly when an entry of that ledger other than the record just
    appended is tagged wake-up, has the same target and satisfies
    [not (existing.end <= start or existing.start >= end)]. *)
Theorem collision_check_spec st a :
  sized n st -> in_range n a ->
  let w := wakeup_record cfg a in
  let ledger := transmissions st ++ [w] in
  (exists st', step cfg st a = Ret st' /\
     take (length ledger) (transmissions st') = ledger /\
     (transmissions st' = ledger <-> collided cfg st a = true)) /\
  collided cfg st a = collision_check ledger (a_target a) (tr_start w) (tr_end w) /\
  (collided cfg st a = true <->
   exists i tr, ledger !! i = Some tr /\ i <> length (transmissions st) /\
     tr_type tr = W /\ tr_target tr = a_target a /\
     ~ (tr_end tr <= tr_start w \/ tr_start tr >= tr_end w)).
Proof.
  intros Hsz Hr w ledger. split; [|split].
  - exists (next_state cfg st a). split; [by eapply step_next_state|].
    unfold next_state. fold w. fold ledger.
    destruct (collided cfg st a); cbn [transmissions].
    + split; [by rewrite firstn_all | done].
    + split.
      * rewrite <- app_assoc. by rewrite take_app_length.
      * split; [|discriminate]. intros H. exfalso.
        apply (f_equal length) in H. rewrite !length_app in H. simpl in H. lia.
  - reflexivity.
  - unfold collided. fold w. fold ledger. unfold ledger.
    rewrite collision_check_app_last, scan_true_iff. split.
    + intros (tr & Hin & Ht & Hty & Hov).
      apply (other_entries _ w) in Hin as (i & Hi & Hne).
      exists i, tr. rewrite overlaps_iff in Hov. tauto.
    + intros (i & tr & Hi & Hne & Hty & Ht & Hov). exists tr.
      rewrite overlaps_iff. repeat split; try done.
      apply (other_entries _ w). eauto.
Qed.

(** ** The loop over attempts *)

Lemma walk_app st l1 l2 :
  walk cfg st (l1 ++ l2) = st1 ← walk cfg st l1; walk cfg st1 l2.
Proof.
  revert st. induction l1 as [|a l1 IH]; intros st; simpl; [done|].
  destruct (step cfg st a) as [st1| |]; simpl; auto.
Qed.

Lemma filter_wakeup_next_state st a :
  exists new, transmissions (next_state cfg st a) = transmissions st ++ new /\
              List.filter is_wakeup new = [wakeup_record cfg a].
Proof.
  unfold next_state. destruct (collided cfg st a); cbn [transmissions].
  - exists [wakeup_record cfg a]. split; [done|]. reflexivity.
  - exists [wakeup_record cfg a; ack_record cfg a; data_record cfg a].
    split; [by rewrite <- !app_assoc|]. reflexivity.
Qed.

(** A walk over in-range attempts returns; it only appends to the ledger,
    puts exactly one wake-up record per attempt on it, in order, and counts
    every attempt once. *)
Lemma walk_returns l : forall st,
  sized n st -> Forall (in_range n) l ->
  exists st' new,
    walk cfg st l = Ret st' /\ sized n st' /\
    transmissions st' = transmissions st ++ new /\
    List.filter is_wakeup new = map (wakeup_record cfg) l /\
    attempts_done st' = (attempts_done st + length l)%nat.
Proof.
  induction l as [|a l IH]; intros st Hsz Hall.
  - exists st, []. simpl. rewrite app_nil_r. split_and!; done || lia.
  - apply Forall_cons in Hall as [Ha Hl].
    destruct (filter_wakeup_next_state st a) as (new1 & E1 & F1).
    destruct (IH (next_state cfg st a)) as (st' & new2 & Hw & Hsz' & E2 & F2 & Hc);
      [by apply next_state_sized | done |].
    exists st', (new1 ++ new2). simpl.
    rewrite step_next_state by done. simpl.
    split_and!; try done.
    + by rewrite E2, E1, app_assoc.
    + by rewrite List.filter_app, F1, F2.
    + rewrite Hc. unfold next_state.
      destruct (collided cfg st a); cbn [attempts_done]; lia.
Qed.

Lemma walk_Ret_inv l : forall st st',
  sized n st -> walk cfg st l = Ret st' -> Forall (in_range n) l.
Proof.
  induction l as [|a l IH]; intros st st' Hsz H; [constructor|].
  simpl in H. apply bind_Ret in H as (st1 & H1 & H).
  apply step_Ret_inv in H1 as [Hr ->]; [|done].
  constructor; [done|]. eapply IH; [|exact H]. by apply next_state_sized.
Qed.

Lemma init_state_sized : sized n (init_state n).
Proof. unfold sized, init_state; simpl. by rewrite !repeat_length. Qed.

(** ** The two exits of an iteration *)

(** C2. An attempt marked collided: the sender's energy cell receives, on top
    of the sense and wake-up charges, the idle power for the fixed timeout
    [tau_txW + tau_txAck + tau_safe]; the sender's bytes-sent grows by
    [size_W] and no other cell of it changes; bytes-delivered is untouched;
    the counter grows by one; the ledger grows by the wake-up record only;
    and in the rest of the run the wake-up records appended are those of the
    later attempts, one each, so the collided attempt is not transmitted
    again, and every attempt is counted once. *)
Theorem collided_attempt_accounting st a rest :
  sized n st -> Forall (in_range n) (a :: rest) ->
  collided cfg st a = true ->
  exists st1 st_end b,
    step cfg st a = Ret st1 /\
    walk cfg st (a :: rest) = Ret st_end /\
    energy st1 =
      add_at (energy_after_wakeup cfg (energy st) a) (a_node a)
        ((I_idle * Vcc) * ((tau_txW + tau_txAck + tau_safe) / 1000.0)) /\
    bytes_sent st !! a_node a = Some b /\
    bytes_sent st1 !! a_node a = Some (b + inject_Z size_W) /\
    (forall m, m <> a_node a -> bytes_sent st1 !! m = bytes_sent st !! m) /\
    bytes_success st1 = bytes_success st /\
    attempts_done st1 = (attempts_done st + 1)%nat /\
    transmissions st1 = transmissions st ++ [wakeup_record cfg a] /\
    List.filter is_wakeup
      (drop (length (transmissions st1)) (transmissions st_end)) =
      map (wakeup_record cfg) rest /\
    attempts_done st_end = (attempts_done st1 + length rest)%nat.
Proof.
  intros Hsz Hall Hc. apply Forall_cons in Hall as [Ha Hrest].
  pose proof (step_next_state st a Hsz Ha) as Hstep.
  destruct (walk_returns rest (next_state cfg st a))
    as (st_end & new & Hw & _ & Hnew & Hf & Hcnt);
    [by apply next_state_sized | done |].
  destruct Hsz as (He & Hs & Hd). destruct Ha as [Hn Ht].
  destruct (lookup_lt_is_Some_2 (bytes_sent st) (a_node a)) as [b Hb]; [lia|].
  exists (next_state cfg st a), st_end, b.
  split; [done|]. split; [simpl; by rewrite Hstep|].
  rewrite Hnew, drop_app_length. revert Hcnt.
  unfold next_state. rewrite Hc. cbn [energy bytes_sent bytes_success
    attempts_done transmissions]. intros Hcnt.
  split_and!; try done.
  - by apply lookup_add_at_eq.
  - intros m Hm. by apply lookup_add_at_ne.
Qed.

(** C3. An attempt that completes without collision: the sender's bytes-sent
    grows by [size_W + size_ACK + size_DATA], the sender's bytes-delivered by
    [size_DATA], and no other node's byte totals change, the target's in
    particular. *)
Theorem completed_attempt_bytes st a :
  sized n st -> in_range n a -> a_node a <> a_target a ->
  collided cfg st a = false ->
  exists st' b d,
    step cfg st a = Ret st' /\
    bytes_sent st !! a_node a = Some b /\
    bytes_success st !! a_node a = Some d /\
    bytes_sent st' !! a_node a =
      Some (b + inject_Z (size_W + size_ACK + size_DATA)) /\
    bytes_success st' !! a_node a = Some (d + inject_Z size_DATA) /\
    bytes_sent st' !! a_target a = bytes_sent st !! a_target a /\
    bytes_success st' !! a_target a = bytes_success st !! a_target a /\
    (forall m, m <> a_node a ->
       bytes_sent st' !! m = bytes_sent st !! m /\
       bytes_success st' !! m = bytes_success st !! m).
Proof.
  intros Hsz Ha Hne Hc.
  pose proof (step_next_state st a Hsz Ha) as Hstep.
  destruct Hsz as (He & Hs & Hd). destruct Ha as [Hn Ht].
  destruct (lookup_lt_is_Some_2 (bytes_sent st) (a_node a)) as [b Hb]; [lia|].
  destruct (lookup_lt_is_Some_2 (bytes_success st) (a_node a)) as [d Hd']; [lia|].
  exists (next_state cfg st a), b, d. split; [done|].
  unfold next_state. rewrite Hc. cbn [bytes_sent bytes_success].
  split_and!; try done.
  - by apply lookup_add_at_eq.
  - by apply lookup_add_at_eq.
  - by apply lookup_add_at_ne.
  - by apply lookup_add_at_ne.
  - intros m Hm. split; by apply lookup_add_at_ne.
Qed.

(** ** Monotone totals *)

Lemma Forall2_Qle_refl (l : list Q) : Forall2 Qle l l.
Proof. induction l; constructor; [apply Qle_refl | done]. Qed.

Lemma Forall2_Qle_trans (l1 l2 l3 : list Q) :
  Forall2 Qle l1 l2 -> Forall2 Qle l2 l3 -> Forall2 Qle l1 l3.
Proof.
  intros H. revert l3. induction H as [|x y l1 l2 Hxy _ IH]; intros l3 H3.
  - inversion H3. constructor.
  - inversion H3 as [|? z ? l3' Hyz H3']; subst. constructor; [|by apply IH].
    eapply Qle_trans; eauto.
Qed.

Lemma Forall_Qle_mono (l1 l2 : list Q) :
  Forall (Qle 0) l1 -> Forall2 Qle l1 l2 -> Forall (Qle 0) l2.
Proof.
  intros H0 H. induction H as [|x y l1 l2 Hxy _ IH]; [constructor|].
  inversion H0; subst. constructor; [|by apply IH]. eapply Qle_trans; eauto.
Qed.

Lemma add_at_mono arr i c : 0 <= c -> Forall2 Qle arr (add_at arr i c).
Proof.
  intros Hc. unfold add_at. revert i.
  induction arr as [|x arr IH]; intros [|i]; simpl; constructor;
    auto using Forall2_Qle_refl, Qle_refl.
  - lra.
  - apply IH.
Qed.

Lemma choices_nonneg :
  (0 <= fst (wakeup_choice cfg) /\ 0 <= snd (wakeup_choice cfg)) /\
  (0 <= fst (ack_choice cfg) /\ 0 <= snd (ack_choice cfg)) /\
  (0 <= fst (data_choice cfg) /\ 0 <= snd (data_choice cfg)).
Proof.
  unfold wakeup_choice, ack_choice, data_choice.
  destruct (String.eqb cfg "config1"), (String.eqb cfg "config2");
    cbn [fst snd]; split_and!; by apply Qle_bool_imp_le.
Qed.

Lemma charge_nonneg (I d k : Q) : 0 <= I -> 0 <= d -> 0 < k -> 0 <= (I * Vcc) * (d / k).
Proof.
  intros HI Hd Hk. apply Qmult_le_0_compat.
  - apply Qmult_le_0_compat; [done | by apply Qle_bool_imp_le].
  - apply Qle_shift_div_l; [done | lra].
Qed.

Ltac chain_mono :=
  repeat (eapply Forall2_Qle_trans; [|apply add_at_mono]);
  [apply Forall2_Qle_refl|..].

Lemma next_state_mono st a : totals_le st (next_state cfg st a).
Proof.
  destruct choices_nonneg as ((Hw1 & Hw2) & (Ha1 & Ha2) & (Hd1 & Hd2)).
  assert (H1000 : 0 < 1000.0) by reflexivity.
  assert (HIr : 0 <= I_receive) by (by apply Qle_bool_imp_le).
  assert (HIi : 0 <= I_idle) by (by apply Qle_bool_imp_le).
  unfold totals_le, next_state, energy_after_wakeup, energy_after_data.
  destruct (wakeup_choice cfg) as [W_dur I_tx].
  destruct (ack_choice cfg) as [ack_I ack_dur].
  destruct (data_choice cfg) as [data_dur data_I].
  cbn [fst snd] in *.
  destruct (collided cfg st a); cbn [energy bytes_sent bytes_success];
    split_and!; try apply Forall2_Qle_refl; try (by apply add_at_mono);
    chain_mono; try (by apply charge_nonneg); by apply Qle_bool_imp_le.
Qed.

Lemma totals_le_refl st : totals_le st st.
Proof. unfold totals_le. auto using Forall2_Qle_refl. Qed.

Lemma totals_le_trans st1 st2 st3 :
  totals_le st1 st2 -> totals_le st2 st3 -> totals_le st1 st3.
Proof.
  intros (H1 & H2 & H3) (K1 & K2 & K3). unfold totals_le.
  split_and!; eapply Forall2_Qle_trans; eauto.
Qed.

Lemma totals_nonneg_mono st st' :
  totals_nonneg st -> totals_le st st' -> totals_nonneg st'.
Proof.
  intros (H1 & H2 & H3) (K1 & K2 & K3). unfold totals_nonneg.
  split_and!;
    [ exact (Forall_Qle_mono _ _ H1 K1) | exact (Forall_Qle_mono _ _ H2 K2)
    | exact (Forall_Qle_mono _ _ H3 K3) ].
Qed.

Lemma walk_mono l : forall st st',
  sized n st -> walk cfg st l = Ret st' -> totals_le st st'.
Proof.
  induction l as [|a l IH]; intros st st' Hsz H; simpl in H.
  - injection H as <-. apply totals_le_refl.
  - apply bind_Ret in H as (st1 & H1 & H).
    apply step_Ret_inv in H1 as [_ ->]; [|done].
    eapply totals_le_trans; [apply next_state_mono|].
    eapply IH; [|exact H]. by apply next_state_sized.
Qed.

Lemma init_state_nonneg : totals_nonneg (init_state n).
Proof.
  unfold totals_nonneg, init_state; simpl.
  split_and!; apply List.Forall_forall; intros x Hx;
    apply repeat_spec in Hx; subst; apply Qle_refl.
Qed.

End Walker.

(** ** The baseline charge *)

(** The loop of lines 139-140 over a block of node indices adds the baseline
    to every cell of the block and to no other. *)
Lemma add_baseline_seq T m : forall k en,
  (k + m <= length en)%nat ->
  exists en', add_baseline (seq k m) T en = Ret en' /\
    length en' = length en /\
    forall i, en' !! i =
      if decide (k <= i < k + m)%nat
      then (fun e => e + baseline_charge T) <$> en !! i
      else en !! i.
Proof.
  induction m as [|m IH]; intros k en Hlen; simpl.
  - exists en. split_and!; try done. intros i. case_decide; [lia | done].
  - rewrite iadd_Ret by lia. simpl.
    destruct (IH (S k) (add_at en k (baseline_charge T))) as (en' & Hrun & Hl & Hlk).
    { rewrite length_add_at. lia. }
    exists en'. rewrite length_add_at in Hl. split_and!; try done.
    intros i. rewrite Hlk. unfold add_at.
    destruct (decide (i = k)) as [->|Hne].
    + rewrite list_lookup_alter_eq. repeat case_decide; try lia. done.
    + rewrite list_lookup_alter_ne by done. repeat case_decide; try lia; done.
Qed.

Lemma add_baseline_all T en :
  add_baseline (seq 0 (length en)) T en =
    Ret (map (fun e => e + baseline_charge T) en).
Proof.
  destruct (add_baseline_seq T (length en) 0%nat en) as (en' & -> & Hl & Hlk); [lia|].
  f_equal. apply list_eq. intros i. rewrite Hlk, list_lookup_fmap.
  case_decide as Hi; [done|].
  rewrite lookup_ge_None_2 by lia. done.
Qed.

Lemma baseline_mono T (en : list Q) :
  0 <= T -> Forall2 Qle en (map (fun e => e + baseline_charge T) en).
Proof.
  intros HT. assert (0 <= baseline_charge T).
  { unfold baseline_charge. apply charge_nonneg;
      [by apply Qle_bool_imp_le | done | reflexivity]. }
  induction en; simpl; constructor; [lra | done].
Qed.

(** C5. From the zeroed accumulators, at every point of the loop over
    attempts all per-node totals are non-negative; between any two points of
    the loop no cell of energy, bytes-sent or bytes-delivered decreases; and
    for a non-negative horizon the baseline charge decreases no energy cell. *)
Theorem totals_monotone cfg n T l1 l2 :
  Forall (in_range n) (l1 ++ l2) -> 0 <= T ->
  exists st1 st2 en,
    walk cfg (init_state n) l1 = Ret st1 /\
    walk cfg st1 l2 = Ret st2 /\
    walk cfg (init_state n) (l1 ++ l2) = Ret st2 /\
    add_baseline (seq 0 n) T (energy st2) = Ret en /\
    totals_nonneg st1 /\ totals_le st1 st2 /\ totals_nonneg st2 /\
    Forall2 Qle (energy st2) en /\ Forall (Qle 0) en.
Proof.
  intros Hall HT. apply Forall_app in Hall as [H1 H2].
  destruct (walk_returns cfg n l1 (init_state n)) as (st1 & ? & Hw1 & Hsz1 & _);
    [apply init_state_sized | done |].
  destruct (walk_returns cfg n l2 st1) as (st2 & ? & Hw2 & Hsz2 & _); [done..|].
  assert (Hn1 : totals_nonneg st1).
  { eapply totals_nonneg_mono; [apply init_state_nonneg|].
    eapply walk_mono; [apply init_state_sized | exact Hw1]. }
  assert (Hle : totals_le st1 st2) by (eapply walk_mono; eauto).
  assert (Hn2 : totals_nonneg st2) by (eapply totals_nonneg_mono; eauto).
  exists st1, st2, (map (fun e => e + baseline_charge T) (energy st2)).
  split_and!; try done.
  - rewrite walk_app, Hw1. exact Hw2.
  - destruct Hsz2 as (<- & _). apply add_baseline_all.
  - by apply baseline_mono.
  - eapply Forall_Qle_mono; [exact (proj1 Hn2) | by apply baseline_mono].
Qed.

(** ** The arrival generator *)

Lemma others_In N node x :
  In x (others N node) <-> (x < N)%nat /\ x <> node.
Proof.
  unfold others. rewrite filter_In, in_seq, negb_true_iff, Nat.eqb_neq. lia.
Qed.


Lemma length_filter_neq_seq node m : forall k,
  length (List.filter (fun x => negb (x =? node)%nat) (seq k m)) =
  if decide (k <= node < k + m)%nat then (m - 1)%nat else m.
Proof.
  induction m as [|m IH]; intros k; simpl.
  - case_decide; lia.
  - destruct (Nat.eqb_spec k node) as [->|Hne]; simpl; rewrite IH;
      repeat case_decide; lia.
Qed.

Lemma others_length N node : (node < N)%nat -> length (others N node) = (N - 1)%nat.
Proof.
  intros H. unfold others. rewrite length_filter_neq_seq. case_decide; lia.
Qed.

Lemma choice_inv {A : Type} (l : list A) g x g' :
  choice l g = Ret (x, g') -> In x l /\ g' = advance_choice g.
Proof.
  unfold choice. destruct (l !! _) as [y|] eqn:E; [|discriminate].
  intros H. injection H as <- <-. split; [|done].
  apply list_elem_of_In, list_elem_of_lookup. eauto.
Qed.

Lemma choice_returns {A : Type} (l : list A) g :
  l <> [] -> exists x, choice l g = Ret (x, advance_choice g).
Proof.
  intros Hne. unfold choice.
  destruct (lookup_lt_is_Some_2 l (choice_src g (choice_pos g) mod length l)%nat)
    as [x Hx].
  { apply Nat.mod_upper_bound. destruct l; [done | simpl; lia]. }
  rewrite Hx. eauto.
Qed.

Lemma choice_nil {A : Type} g : choice (@nil A) g = Raise IndexError.
Proof. reflexivity. Qed.

Lemma Qlt_bool_false_iff x y : QMicromega.Qlt_bool x y = false <-> ~ x < y.
Proof. rewrite <- QMicromega.Qlt_bool_iff. by destruct (QMicromega.Qlt_bool x y). Qed.

Lemma Qle_bool_false_iff x y : Qle_bool x y = false <-> y < x.
Proof.
  rewrite <- not_true_iff_false, Qle_bool_iff. split; [apply Qnot_le_lt | apply Qlt_not_le].
Qed.

(** The [while] loop of one node, started at time [t] with [acc] collected:
    it appends attempts of that node whose times are the running sums of the
    draws, keeps them while they are below the horizon, and stops on the
    first running sum at or past it, which it drops. *)
Lemma arrivals_spec fuel N node T lam : forall t acc g out g',
  arrivals fuel N node T lam t acc g = Ret (out, g') ->
  exists new m,
    out = acc ++ new /\
    map a_time new =
      map (fun j => cumul (1.0 / lam) (exp_src g) (exp_pos g) t (S j)) (seq 0 m) /\
    Forall (fun a => a_node a = node /\ In (a_target a) (others N node) /\
                     a_time a < T) new /\
    (t < T -> T <= cumul (1.0 / lam) (exp_src g) (exp_pos g) t (S m) /\
              exp_pos g' = (exp_pos g + S m)%nat) /\
    (~ t < T -> m = 0%nat /\ g' = g) /\
    exp_src g' = exp_src g /\ choice_src g' = choice_src g.
Proof.
  induction fuel as [|fuel IH]; intros t acc g out g' H; simpl in H.
  - destruct (QMicromega.Qlt_bool t T) eqn:Ht; [discriminate|].
    injection H as <- <-. apply Qlt_bool_false_iff in Ht.
    exists [], 0%nat. rewrite app_nil_r. simpl. split_and!; try done.
  - destruct (QMicromega.Qlt_bool t T) eqn:Ht.
    2:{ injection H as <- <-. apply Qlt_bool_false_iff in Ht.
        exists [], 0%nat. rewrite app_nil_r. simpl. split_and!; try done. }
    apply QMicromega.Qlt_bool_iff in Ht.
    unfold py_div in H. destruct (Qeq_bool lam 0); [discriminate|].
    cbn [mbind outcome_bind] in H. unfold exponential in H.
    destruct (QMicromega.Qlt_bool (1.0 / lam) 0); [discriminate|].
    cbn [mbind outcome_bind] in H.
    set (t1 := t + 1.0 / lam * exp_src g (exp_pos g)) in *.
    destruct (Qle_bool T t1) eqn:Hov.
    + injection H as <- <-. apply Qle_bool_iff in Hov.
      exists [], 0%nat. rewrite app_nil_r. simpl. split_and!; try done.
      intros _. split; [done | lia].
    + apply Qle_bool_false_iff in Hov.
      apply bind_Ret in H as ([target g2] & Hch & H).
      apply choice_inv in Hch as [Hin ->].
      apply IH in H as (new & m & -> & Htimes & Hall & Hlt & _ & Hsrc & Hcs).
      cbn [advance_choice advance_exp exp_src exp_pos choice_src] in *.
      exists ({| a_node := node; a_time := t1; a_target := target |} :: new), (S m).
      split_and!; try done.
      * by rewrite <- app_assoc.
      * cbn [map seq a_time cumul]. f_equal.
        rewrite Htimes, <- seq_shift, map_map. reflexivity.
      * constructor; [|done]. cbn. done.
      * intros _. destruct (Hlt Hov) as [Hge Hpos]. split; [exact Hge | lia].
Qed.

Lemma by_node_all node l :
  Forall (fun a => a_node a = node) l -> by_node node l = l.
Proof.
  induction 1 as [|a l Ha _ IH]; simpl; [done|].
  rewrite (proj2 (Nat.eqb_eq _ _) Ha). by f_equal.
Qed.

Lemma by_node_none node l :
  Forall (fun a => a_node a <> node) l -> by_node node l = [].
Proof.
  induction 1 as [|a l Ha _ IH]; simpl; [done|].
  by rewrite (proj2 (Nat.eqb_neq _ _) Ha).
Qed.

Lemma by_node_app node l1 l2 :
  by_node node (l1 ++ l2) = by_node node l1 ++ by_node node l2.
Proof. apply List.filter_app. Qed.

(** The [for node in range(N)] loop: one truncated renewal stream per node. *)
Lemma for_nodes_spec fuel N T lam nodes : forall acc g out g',
  List.NoDup nodes ->
  for_nodes fuel N nodes T lam acc g = Ret (out, g') ->
  exists new,
    out = acc ++ new /\
    Forall (fun a => In (a_node a) nodes /\
                     In (a_target a) (others N (a_node a)) /\ a_time a < T) new /\
    (forall node, In node nodes ->
       renewal_of T (1.0 / lam) (exp_src g) (map a_time (by_node node new))) /\
    exp_src g' = exp_src g.
Proof.
  induction nodes as [|node rest IH]; intros acc g out g' Hnd H; simpl in H.
  - injection H as <- <-. exists []. rewrite app_nil_r.
    split_and!; done.
  - apply bind_Ret in H as ([acc1 g1] & Harr & H).
    apply arrivals_spec in Harr
      as (new1 & m & -> & Htimes & Hall1 & Hlt & Hnlt & Hsrc & _).
    apply List.NoDup_cons_iff in Hnd as [Hnotin Hnd].
    apply IH in H as (new2 & -> & Hall2 & Hren & Hsrc2); [|done].
    assert (H1 : Forall (fun a => a_node a = node) new1).
    { eapply Forall_impl; [exact Hall1|]. by intros a (? & _). }
    assert (H2 : Forall (fun a => a_node a <> node) new2).
    { eapply Forall_impl; [exact Hall2|]. intros a (Hin & _) Heq.
      by rewrite Heq in Hin. }
    exists (new1 ++ new2). split_and!.
    + by rewrite app_assoc.
    + apply Forall_app. split.
      * eapply Forall_impl; [exact Hall1|]. intros a (-> & ? & ?).
        split_and!; try done. by left.
      * eapply Forall_impl; [exact Hall2|]. intros a (? & ? & ?).
        split_and!; try done. by right.
    + intros node' [<-|Hin].
      * rewrite by_node_app, by_node_all, by_node_none, app_nil_r by done.
        exists (exp_pos g), m. split_and!; try done.
        -- rewrite Forall_map. eapply Forall_impl; [exact Hall1|].
           by intros a (_ & _ & ?).
        -- intros HT. by destruct (Hlt HT).
      * assert (node' <> node) by (intros ->; done).
        rewrite by_node_app, (by_node_none node' new1), app_nil_l.
        2:{ eapply Forall_impl; [exact H1|]. intros a Heq. by rewrite Heq. }
        rewrite <- Hsrc. by apply Hren.
    + congruence.
Qed.

(** *** The sort *)

Lemma insert_by_time_perm a l : Permutation (insert_by_time a l) (a :: l).
Proof.
  induction l as [|b l IH]; simpl; [done|].
  destruct (Qle_bool (a_time a) (a_time b)); [done|].
  rewrite IH. apply perm_swap.
Qed.

Lemma sort_by_time_perm l : Permutation (sort_by_time l) l.
Proof.
  induction l as [|a l IH]; simpl; [done|].
  rewrite insert_by_time_perm. by constructor.
Qed.

Lemma insert_by_time_sorted a l :
  StronglySorted time_le l -> StronglySorted time_le (insert_by_time a l).
Proof.
  induction 1 as [|b l Hs IH Hb]; simpl.
  - repeat constructor.
  - destruct (Qle_bool (a_time a) (a_time b)) eqn:E.
    + apply Qle_bool_iff in E. constructor; [by constructor|].
      constructor; [done|]. eapply Forall_impl; [exact Hb|].
      intros c Hc. unfold time_le in *. lra.
    + apply Qle_bool_false_iff in E. constructor; [done|].
      eapply Permutation_Forall; [symmetry; apply insert_by_time_perm|].
      constructor; [|done]. unfold time_le. lra.
Qed.

Lemma sort_by_time_sorted l : StronglySorted time_le (sort_by_time l).
Proof.
  induction l as [|a l IH]; simpl; [constructor | by apply insert_by_time_sorted].
Qed.

(** *** Enough fuel gives a result *)

Lemma others_nonempty N node : (node < N)%nat -> (2 <= N)%nat -> others N node <> [].
Proof.
  intros Hn HN E. apply (f_equal length) in E.
  rewrite others_length in E by done. simpl in E. lia.
Qed.

Lemma inject_Z_S (f : nat) :
  inject_Z (Z.of_nat (S f)) == inject_Z (Z.of_nat f) + 1.
Proof. rewrite Nat2Z.inj_succ, <- Z.add_1_r, inject_Z_plus. reflexivity. Qed.

(** When every draw is at least [d > 0] and the rate is positive, each
    iteration advances the clock by at least [d / lam], so the loop of a node
    ends within any fuel that covers the distance to the horizon. *)
Lemma arrivals_returns N node T lam d fuel : forall t acc g,
  0 < lam -> 0 < d -> (forall k, d <= exp_src g k) ->
  others N node <> [] ->
  T < t + inject_Z (Z.of_nat fuel) * (d / lam) ->
  exists out g', arrivals fuel N node T lam t acc g = Ret (out, g').
Proof.
  intros t acc g Hlam Hd Hsrc Hoth. revert t acc g Hsrc.
  assert (Hinv : 0 < / lam) by (by apply Qinv_lt_0_compat).
  assert (Hstep : forall x, d <= x -> d / lam <= 1.0 / lam * x).
  { intros x Hx. unfold Qdiv.
    assert (E : 1.0 * / lam * x == / lam * x) by ring.
    rewrite E, (Qmult_comm d). apply Qmult_le_l; done. }
  assert (Hdl : 0 < d / lam) by (unfold Qdiv; by apply Qmult_lt_0_compat).
  assert (Hscale : 0 < 1.0 / lam) by (unfold Qdiv; lra).
  set (dl := d / lam) in *. clearbody dl.
  induction fuel as [|fuel IH]; intros t acc g Hsrc Hfuel; simpl.
  - destruct (QMicromega.Qlt_bool t T) eqn:Ht; [|eauto].
    apply QMicromega.Qlt_bool_iff in Ht.
    change (inject_Z (Z.of_nat 0)) with 0 in Hfuel. lra.
  - destruct (QMicromega.Qlt_bool t T) eqn:Ht; [|eauto].
    unfold py_div. destruct (Qeq_bool lam 0) eqn:E0.
    { apply Qeq_bool_iff in E0. lra. }
    cbn [mbind outcome_bind]. unfold exponential.
    destruct (QMicromega.Qlt_bool (1.0 / lam) 0) eqn:E1.
    { apply QMicromega.Qlt_bool_iff in E1. exfalso.
      apply (Qlt_irrefl 0). eapply Qlt_trans; [exact Hscale | exact E1]. }
    cbn [mbind outcome_bind].
    destruct (Qle_bool T _) eqn:Hov; [eauto|].
    destruct (choice_returns (others N node) (advance_exp g) Hoth) as [target Hch].
    fold (advance_exp g). rewrite Hch. cbn [mbind outcome_bind].
    apply IH; [exact Hsrc|].
    rewrite inject_Z_S in Hfuel. specialize (Hstep _ (Hsrc (exp_pos g))).
    cbn [advance_exp exp_src exp_pos].
    set (q := inject_Z (Z.of_nat fuel)) in *.
    set (q0 := 1.0 / lam * exp_src g (exp_pos g)) in *.
    assert (E : (q + 1) * dl == q * dl + dl) by ring.
    rewrite E in Hfuel. set (qd := q * dl) in *.
    clearbody qd q0. clear - Hfuel Hstep. lra.
Qed.

Lemma for_nodes_returns N T lam d fuel nodes : forall acc g,
  0 < lam -> 0 < d -> (forall k, d <= exp_src g k) ->
  Forall (fun node => others N node <> []) nodes ->
  T < inject_Z (Z.of_nat fuel) * (d / lam) ->
  exists out g', for_nodes fuel N nodes T lam acc g = Ret (out, g').
Proof.
  intros acc g Hlam Hd Hsrc Hnodes Hfuel. revert acc g Hsrc.
  induction Hnodes as [|node rest Hnode _ IH]; intros acc g Hsrc; simpl; [eauto|].
  destruct (arrivals_returns N node T lam d fuel 0.0 acc g) as (acc1 & g1 & Harr);
    try done.
  { lra. }
  rewrite Harr. cbn [mbind outcome_bind]. apply IH.
  apply arrivals_spec in Harr as (_ & _ & _ & _ & _ & _ & _ & -> & _). exact Hsrc.
Qed.

Lemma schedule_attempts_returns fuel N T lam g d :
  0 < lam -> N <> 1%nat -> 0 < d -> (forall k, d <= exp_src g k) ->
  T < inject_Z (Z.of_nat fuel) * (d / lam) ->
  exists attempts g', schedule_attempts fuel N T lam g = Ret (attempts, g').
Proof.
  intros Hlam HN Hd Hsrc Hfuel. unfold schedule_attempts.
  destruct (for_nodes_returns N T lam d fuel (seq 0 N) [] g) as (out & g' & ->);
    try done.
  - apply List.Forall_forall. intros node Hin. apply in_seq in Hin.
    apply others_nonempty; lia.
  - cbn [mbind outcome_bind]. eauto.
Qed.

Lemma schedule_attempts_sound fuel N T lam g attempts g' :
  schedule_attempts fuel N T lam g = Ret (attempts, g') ->
  exists raw,
    attempts = sort_by_time raw /\ Permutation raw attempts /\
    (forall node, (node < N)%nat ->
       renewal_of T (1.0 / lam) (exp_src g) (map a_time (by_node node raw))) /\
    Forall (valid_attempt N T) attempts /\
    StronglySorted time_le attempts.
Proof.
  intros H. unfold schedule_attempts in H.
  apply bind_Ret in H as ([raw g1] & Hfor & H). injection H as <- <-.
  apply for_nodes_spec in Hfor as (new & Hraw & Hall & Hren & _);
    [|apply seq_NoDup].
  simpl in Hraw. subst new. exists raw. split_and!.
  - done.
  - symmetry. apply sort_by_time_perm.
  - intros node Hnode. apply Hren, in_seq. lia.
  - eapply Permutation_Forall; [symmetry; apply sort_by_time_perm|].
    eapply Forall_impl; [exact Hall|]. intros a (Hn & Ht & Htime).
    apply in_seq in Hn. pose proof (proj1 (others_In _ _ _) Ht) as [? ?].
    unfold valid_attempt. split_and!; try done. lia.
  - apply sort_by_time_sorted.
Qed.


(** ** The driver *)

Lemma valid_in_range N T a : valid_attempt N T a -> in_range N a.
Proof. intros (? & _ & ? & _). by split. Qed.

Lemma schedule_attempts_in_range fuel N T lam g attempts g' :
  schedule_attempts fuel N T lam g = Ret (attempts, g') ->
  Forall (in_range N) attempts.
Proof.
  intros H. apply schedule_attempts_sound in H as (_ & _ & _ & _ & Hv & _).
  eapply Forall_impl; [exact Hv | apply valid_in_range].
Qed.

(** Once the generator has returned, the run returns: the loop over attempts
    and the baseline loop raise nothing. *)
Lemma run_simulation_returns fuel p cfg g attempts g1 :
  schedule_attempts fuel (N p) (sim_time p) (lambda_rate p) g = Ret (attempts, g1) ->
  exists st,
    walk cfg (init_state (N p)) attempts = Ret st /\ sized (N p) st /\
    run_simulation fuel p cfg g = Ret (result_of p st, g1).
Proof.
  intros Hgen. pose proof (schedule_attempts_in_range _ _ _ _ _ _ _ Hgen) as Hr.
  destruct (walk_returns cfg (N p) attempts (init_state (N p)))
    as (st & _ & Hw & Hsz & _); [apply init_state_sized | done |].
  exists st. split_and!; try done.
  unfold run_simulation. rewrite Hgen. cbn [mbind outcome_bind]. rewrite Hw.
  cbn [mbind outcome_bind]. destruct Hsz as (He & _).
  rewrite <- He at 1. rewrite add_baseline_all. reflexivity.
Qed.

(** *** Counting attempts *)

Lemma filter_partition_length (l : list bool) :
  (length (List.filter (fun b => b) l) + length (List.filter negb l))%nat = length l.
Proof. induction l as [|[] l IH]; simpl; lia. Qed.

Lemma marks_walk cfg n l : forall st,
  sized n st -> Forall (in_range n) l ->
  length (marks cfg st l) = length l /\
  exists st', walk cfg st l = Ret st' /\
    length (List.filter is_data (transmissions st')) =
      (length (List.filter is_data (transmissions st)) + completed_count cfg st l)%nat.
Proof.
  induction l as [|a l IH]; intros st Hsz Hall.
  - split; [done|]. exists st. split; [done|]. unfold completed_count. simpl. lia.
  - apply Forall_cons in Hall as [Ha Hl].
    destruct (IH (next_state cfg st a)) as (Hlen & st' & Hw & Hcnt);
      [by apply next_state_sized | done |].
    unfold completed_count in *. simpl.
    rewrite (step_next_state cfg n) by done. cbn [mbind outcome_bind].
    split; [by rewrite Hlen|]. exists st'. split; [done|]. rewrite Hcnt.
    unfold next_state. destruct (collided cfg st a); cbn [transmissions negb];
      rewrite !List.filter_app, !length_app; cbn; lia.
Qed.

(** C6. Once the attempts are generated the run returns, and its counter is
    the number of attempts marked collided plus the number marked completed;
    it equals, so does not exceed, the number of generated attempts.  The
    completed ones are those that left a data record on the ledger, and every
    attempt left one wake-up record. *)
Theorem attempts_accounted_once fuel p cfg g attempts g1 :
  schedule_attempts fuel (N p) (sim_time p) (lambda_rate p) g = Ret (attempts, g1) ->
  exists r st,
    run_simulation fuel p cfg g = Ret (r, g1) /\
    walk cfg (init_state (N p)) attempts = Ret st /\
    res_attempts_done r =
      (collided_count cfg (init_state (N p)) attempts +
       completed_count cfg (init_state (N p)) attempts)%nat /\
    res_attempts_done r = length attempts /\
    (res_attempts_done r <= length attempts)%nat /\
    completed_count cfg (init_state (N p)) attempts =
      length (List.filter is_data (transmissions st)) /\
    length attempts = length (List.filter is_wakeup (transmissions st)).
Proof.
  intros Hgen.
  destruct (run_simulation_returns fuel p cfg g attempts g1 Hgen)
    as (st & Hw & Hsz & Hrun).
  pose proof (schedule_attempts_in_range _ _ _ _ _ _ _ Hgen) as Hr.
  destruct (walk_returns cfg (N p) attempts (init_state (N p)))
    as (st0 & new & Hw0 & _ & Hnew & Hf & Hc); [apply init_state_sized | done |].
  destruct (marks_walk cfg (N p) attempts (init_state (N p)))
    as (Hlen & st1 & Hw1 & Hdata); [apply init_state_sized | done |].
  rewrite Hw in Hw0, Hw1. injection Hw0 as <-. injection Hw1 as <-.
  assert (Hdone : attempts_done st = length attempts) by (rewrite Hc; reflexivity).
  exists (result_of p st), st. cbn [result_of res_attempts_done].
  split_and!.
  - done.
  - done.
  - unfold collided_count, completed_count.
    by rewrite filter_partition_length, Hlen.
  - done.
  - lia.
  - rewrite Hdata. reflexivity.
  - rewrite Hnew. cbn [init_state transmissions app].
    by rewrite Hf, length_map.
Qed.

(** *** The network-wide total *)

Lemma sum_over_map (h : nat -> nat) (f : nat -> Q) l :
  sum_over (map h l) f = sum_over l (fun n => f (h n)).
Proof. induction l as [|x l IH]; simpl; [done | by rewrite IH]. Qed.

Lemma fold_left_Qplus_sum_over (l : list Q) : forall acc,
  fold_left Qplus l acc ==
  acc + sum_over (seq 0 (length l)) (fun n => default 0 (l !! n)).
Proof.
  induction l as [|x l IH]; intros acc; simpl.
  - ring.
  - rewrite IH, <- seq_shift, sum_over_map. simpl. ring.
Qed.

Lemma column_sum_sum_over (l : list Q) :
  column_sum l == sum_over (seq 0 (length l)) (fun n => default 0 (l !! n)).
Proof. unfold column_sum. rewrite fold_left_Qplus_sum_over. ring. Qed.

Lemma sum_over_nonneg l f : (forall n, 0 <= f n) -> 0 <= sum_over l f.
Proof.
  intros Hf. induction l as [|x l IH]; simpl; [apply Qle_refl|].
  specialize (Hf x). lra.
Qed.

Lemma column_sum_ge (l : list Q) i x :
  Forall (Qle 0) l -> l !! i = Some x -> x <= column_sum l.
Proof.
  unfold column_sum. intros Hl. revert i.
  induction Hl as [|y l Hy Hl IH]; intros i Hi; [done|].
  simpl. rewrite fold_left_Qplus_sum_over.
  assert (H0 : 0 <= sum_over (seq 0 (length l)) (fun n => default 0 (l !! n))).
  { apply sum_over_nonneg. intros n. destruct (l !! n) as [z|] eqn:E; simpl.
    - eapply (proj1 (List.Forall_forall _ _) Hl), list_elem_of_In, list_elem_of_lookup_2, E.
    - apply Qle_refl. }
  destruct i as [|i]; simpl in Hi.
  - injection Hi as <-. lra.
  - specialize (IH _ Hi). rewrite fold_left_Qplus_sum_over in IH. lra.
Qed.

(** C7. The total the run returns is the sum, over the nodes of the table, of
    the bytes-delivered cell of each node; the table has one row per node. *)
Theorem total_is_sum_over_nodes fuel p cfg g attempts g1 :
  schedule_attempts fuel (N p) (sim_time p) (lambda_rate p) g = Ret (attempts, g1) ->
  exists r,
    run_simulation fuel p cfg g = Ret (r, g1) /\
    df_node (df r) = seq 0 (N p) /\
    length (df_bytes_success (df r)) = N p /\
    total_throughput_bytes r ==
      sum_over (df_node (df r))
        (fun n => default 0 (df_bytes_success (df r) !! n)).
Proof.
  intros Hgen.
  destruct (run_simulation_returns fuel p cfg g attempts g1 Hgen)
    as (st & Hw & (He & Hs & Hd) & Hrun).
  exists (result_of p st).
  cbn [result_of df df_node df_bytes_success total_throughput_bytes].
  split_and!; try done.
  rewrite <- Hd at 1. apply column_sum_sum_over.
Qed.

(** *** The baseline and the empty run *)

Lemma column_sum_zeros n : column_sum (repeat 0 n) = 0.
Proof.
  unfold column_sum. induction n as [|n IH]; simpl; [done|]. exact IH.
Qed.

Lemma lookup_repeat {A : Type} (x : A) n i :
  (i < n)%nat -> repeat x n !! i = Some x.
Proof.
  revert i. induction n as [|n IH]; intros [|i] Hi; simpl; try lia; [done|].
  apply IH. lia.
Qed.

(** C9. After the loop over attempts every node's energy cell receives
    [I_idle * Vcc * (sim_time / 1000)], whatever the node did; and when no
    attempt was generated the result has a zero counter, zero bytes sent and
    delivered for every node, a zero total, and each node's energy equal to
    that baseline charge. *)
Theorem baseline_charge_spec fuel p cfg g attempts g1 :
  schedule_attempts fuel (N p) (sim_time p) (lambda_rate p) g = Ret (attempts, g1) ->
  exists r st,
    run_simulation fuel p cfg g = Ret (r, g1) /\
    walk cfg (init_state (N p)) attempts = Ret st /\
    length (df_energy_J (df r)) = N p /\
    (forall n, (n < N p)%nat ->
       exists e, energy st !! n = Some e /\
         df_energy_J (df r) !! n =
           Some (e + (I_idle * Vcc) * (sim_time p / 1000.0))) /\
    (attempts = [] ->
       res_attempts_done r = 0%nat /\
       df_bytes_sent (df r) = repeat 0 (N p) /\
       df_bytes_success (df r) = repeat 0 (N p) /\
       total_throughput_bytes r = 0 /\
       forall n, (n < N p)%nat ->
         exists e, df_energy_J (df r) !! n = Some e /\
                   e == (I_idle * Vcc) * (sim_time p / 1000.0)).
Proof.
  intros Hgen.
  destruct (run_simulation_returns fuel p cfg g attempts g1 Hgen)
    as (st & Hw & (He & Hs & Hd) & Hrun).
  exists (result_of p st), st.
  cbn [result_of df df_energy_J df_bytes_sent df_bytes_success
       total_throughput_bytes res_attempts_done].
  split_and!; try done.
  - by rewrite length_map.
  - intros n Hn. destruct (lookup_lt_is_Some_2 (energy st) n) as [e Hlk]; [lia|].
    exists e. split; [done|]. by rewrite list_lookup_fmap, Hlk.
  - intros ->. simpl in Hw. injection Hw as <-.
    cbn [init_state attempts_done bytes_sent bytes_success energy].
    split_and!; try done.
    + apply column_sum_zeros.
    + intros n Hn. exists (0 + baseline_charge (sim_time p)). split.
      * rewrite list_lookup_fmap.
        by rewrite lookup_repeat.
      * unfold baseline_charge. ring.
Qed.

(** *** The first attempt *)

Lemma collided_empty_ledger cfg n a : collided cfg (init_state n) a = false.
Proof. reflexivity. Qed.

(** C10. When at least one attempt is generated, the first of the sorted
    stream is the earliest; its collision check scans an empty ledger, so it
    is not marked collided; it runs the three phases, adds [size_DATA] to its
    sender's bytes-delivered, and the total of the run is at least
    [size_DATA]. *)
Theorem first_attempt_completes fuel p cfg g a rest g1 :
  schedule_attempts fuel (N p) (sim_time p) (lambda_rate p) g = Ret (a :: rest, g1) ->
  collided cfg (init_state (N p)) a = false /\
  Forall (time_le a) rest /\
  exists st1 r,
    step cfg (init_state (N p)) a = Ret st1 /\
    transmissions st1 =
      [wakeup_record cfg a; ack_record cfg a; data_record cfg a] /\
    bytes_success st1 !! a_node a = Some (0 + inject_Z size_DATA) /\
    attempts_done st1 = 1%nat /\
    run_simulation fuel p cfg g = Ret (r, g1) /\
    inject_Z size_DATA <= total_throughput_bytes r.
Proof.
  intros Hgen.
  pose proof (schedule_attempts_in_range _ _ _ _ _ _ _ Hgen) as Hr.
  pose proof (schedule_attempts_sound _ _ _ _ _ _ _ Hgen)
    as (_ & _ & _ & _ & _ & Hsorted).
  destruct (run_simulation_returns fuel p cfg g _ g1 Hgen)
    as (st & Hw & Hsz & Hrun).
  apply Forall_cons in Hr as [Ha Hrest].
  split; [apply collided_empty_ledger|].
  split; [by inversion Hsorted|].
  pose proof (step_next_state cfg (N p) _ a (init_state_sized (N p)) Ha) as Hstep.
  simpl in Hw. rewrite Hstep in Hw. cbn [mbind outcome_bind] in Hw.
  set (st1 := next_state cfg (init_state (N p)) a) in *.
  assert (Hsz1 : sized (N p) st1) by apply next_state_sized, init_state_sized.
  assert (Hd1 : bytes_success st1 !! a_node a = Some (0 + inject_Z size_DATA)).
  { unfold st1, next_state. rewrite collided_empty_ledger.
    cbn [bytes_success init_state]. apply lookup_add_at_eq, lookup_repeat, Ha. }
  exists st1, (result_of p st). split_and!; try done.
  cbn [result_of total_throughput_bytes].
  pose proof (walk_mono cfg (N p) rest st1 st Hsz1 Hw) as (_ & _ & Hle).
  destruct (Forall2_lookup_l _ _ _ _ _ Hle Hd1) as (y & Hy & Hxy).
  assert (Hnn : totals_nonneg st).
  { eapply totals_nonneg_mono; [apply init_state_nonneg|].
    eapply totals_le_trans; [apply (next_state_mono cfg _ a)|].
    eapply walk_mono; eauto. }
  pose proof (column_sum_ge _ _ _ (proj2 (proj2 Hnn)) Hy). lra.
Qed.

(** ** Parameters the spec calls invalid *)




Lemma arrivals_past_horizon fuel N node T lam t acc g :
  ~ t < T -> arrivals fuel N node T lam t acc g = Ret (acc, g).
Proof.
  intros Ht. apply Qlt_bool_false_iff in Ht.
  destruct fuel; simpl; by rewrite Ht.
Qed.

Lemma schedule_attempts_no_horizon fuel N T lam g :
  T <= 0 -> schedule_attempts fuel N T lam g = Ret ([], g).
Proof.
  intros HT. unfold schedule_attempts.
  assert (H : forall nodes acc, for_nodes fuel N nodes T lam acc g = Ret (acc, g)).
  { induction nodes as [|node rest IH]; intros acc; simpl; [done|].
    rewrite arrivals_past_horizon by lra. simpl. apply IH. }
  rewrite H. reflexivity.
Qed.









(** ** Scenarios *)

(** One attempt of node 0 to node 1 at t = 5 under config1, two nodes: the
    three records are logged and the bytes land on the sender's cells. *)
Example single_attempt_scenario :
  exists st,
    walk "config1" (init_state 2)
      [{| a_node := 0; a_time := 5.0; a_target := 1 |}] = Ret st /\
    map tr_type (transmissions st) = [W; ACK; DATA] /\
    bytes_sent st = [0 + 46; 0] /\ bytes_success st = [0 + 24; 0] /\
    attempts_done st = 1%nat.
Proof. eexists. split; [reflexivity|]. split_and!; reflexivity. Qed.

(** Two attempts to the same target with overlapping wake-up windows: the
    second is marked collided, sends [size_W] bytes and delivers none. *)
Example forced_collision_scenario :
  exists st,
    walk "config1" (init_state 3) [sample_a1; sample_a2] = Ret st /\
    marks "config1" (init_state 3) [sample_a1; sample_a2] = [false; true] /\
    map tr_type (transmissions st) = [W; ACK; DATA; W] /\
    bytes_sent st = [0 + 46; 0; 0 + 13] /\ bytes_success st = [0 + 24; 0; 0] /\
    attempts_done st = 2%nat.
Proof. eexists. split; [reflexivity|]. split_and!; reflexivity. Qed.

(** ** The theorems at sample inputs *)

Lemma collision_check_spec_witness :
  sized 3 sample_st1 /\ in_range 3 sample_a2 /\
  collided "config1" sample_st1 sample_a2 = true /\
  exists st',
    step "config1" sample_st1 sample_a2 = Ret st' /\
    transmissions st' =
      transmissions sample_st1 ++ [wakeup_record "config1" sample_a2].
Proof.
  assert (Hs : sized 3 sample_st1) by (vm_compute; auto).
  assert (Hr : in_range 3 sample_a2) by (vm_compute; lia).
  destruct (collision_check_spec "config1" 3 sample_st1 sample_a2 Hs Hr)
    as ((st' & Hstep & _ & Hiff) & _ & _).
  assert (Hc : collided "config1" sample_st1 sample_a2 = true) by reflexivity.
  split_and!; try done. exists st'. split; [done | by apply Hiff].
Defined.

Lemma collided_attempt_accounting_witness :
  sized 3 sample_st1 /\ Forall (in_range 3) [sample_a2; sample_a1] /\
  collided "config1" sample_st1 sample_a2 = true /\
  exists st1 st_end,
    walk "config1" sample_st1 [sample_a2; sample_a1] = Ret st_end /\
    bytes_sent st1 !! 2%nat = Some (0 + inject_Z size_W) /\
    bytes_success st1 = bytes_success sample_st1 /\
    attempts_done st_end = 3%nat.
Proof.
  assert (Hs : sized 3 sample_st1) by (vm_compute; auto).
  assert (Hr : Forall (in_range 3) [sample_a2; sample_a1])
    by (repeat constructor; vm_compute; lia).
  assert (Hc : collided "config1" sample_st1 sample_a2 = true) by reflexivity.
  destruct (collided_attempt_accounting "config1" 3 sample_st1 sample_a2
              [sample_a1] Hs Hr Hc)
    as (st1 & st_end & b & _ & Hw & _ & Hb & Hb1 & _ & Hd & Hc1 & _ & _ & Hce).
  split_and!; try done. exists st1, st_end. split_and!; try done.
  - assert (Eb : b = 0) by (vm_compute in Hb; congruence). by rewrite <- Eb.
  - rewrite Hce, Hc1. reflexivity.
Defined.

Lemma completed_attempt_bytes_witness :
  sized 3 (init_state 3) /\ in_range 3 sample_a1 /\
  a_node sample_a1 <> a_target sample_a1 /\
  collided "config1" (init_state 3) sample_a1 = false /\
  exists st',
    step "config1" (init_state 3) sample_a1 = Ret st' /\
    bytes_sent st' !! 0%nat = Some (0 + 46) /\
    bytes_success st' !! 0%nat = Some (0 + 24) /\
    bytes_sent st' !! 1%nat = Some 0 /\
    bytes_success st' !! 1%nat = Some 0.
Proof.
  assert (Hs : sized 3 (init_state 3)) by (vm_compute; auto).
  assert (Hr : in_range 3 sample_a1) by (vm_compute; lia).
  assert (Hne : a_node sample_a1 <> a_target sample_a1) by (vm_compute; lia).
  assert (Hc : collided "config1" (init_state 3) sample_a1 = false) by reflexivity.
  destruct (completed_attempt_bytes "config1" 3 (init_state 3) sample_a1
              Hs Hr Hne Hc)
    as (st' & b & d & Hstep & Hb & Hd & Hb' & Hd' & Hbt & Hdt & _).
  split_and!; try done. exists st'.
  assert (Eb : b = 0) by (vm_compute in Hb; congruence).
  assert (Ed : d = 0) by (vm_compute in Hd; congruence).
  subst b d. split_and!; done.
Defined.

Lemma totals_monotone_witness :
  Forall (in_range 3) ([sample_a1] ++ [sample_a2]) /\ 0 <= 200.0 /\
  exists st1 st2 en,
    walk "config1" (init_state 3) [sample_a1] = Ret st1 /\
    walk "config1" st1 [sample_a2] = Ret st2 /\
    add_baseline (seq 0 3) 200.0 (energy st2) = Ret en /\
    totals_nonneg st1 /\ totals_le st1 st2 /\ Forall2 Qle (energy st2) en.
Proof.
  assert (Hr : Forall (in_range 3) ([sample_a1] ++ [sample_a2]))
    by (repeat constructor; vm_compute; lia).
  assert (HT : 0 <= 200.0) by (vm_compute; discriminate).
  destruct (totals_monotone "config1" 3 200.0 [sample_a1] [sample_a2] Hr HT)
    as (st1 & st2 & en & H1 & H2 & _ & H3 & H4 & H5 & _ & H6 & _).
  split_and!; try done. exists st1, st2, en. split_and!; done.
Defined.

Ltac sample_schedule Hgen :=
  match goal with
  | |- context [schedule_attempts ?f ?n ?T ?lam ?g] =>
      destruct (schedule_attempts f n T lam g) as [[? ?]| |] eqn:Hgen;
      [ | exfalso; vm_compute in Hgen; discriminate
        | exfalso; vm_compute in Hgen; discriminate ]
  end.


Lemma attempts_accounted_once_witness :
  exists attempts g1 r,
    schedule_attempts 10 (N sample_params) (sim_time sample_params)
      (lambda_rate sample_params) sample_rng = Ret (attempts, g1) /\
    run_simulation 10 sample_params "config1" sample_rng = Ret (r, g1) /\
    res_attempts_done r = length attempts /\
    res_attempts_done r =
      (collided_count "config1" (init_state 3) attempts +
       completed_count "config1" (init_state 3) attempts)%nat.
Proof.
  sample_schedule Hgen. rename l into attempts, r into g1.
  destruct (attempts_accounted_once 10 sample_params "config1" sample_rng
              attempts g1 Hgen) as (r & st & Hrun & _ & Hsum & Hlen & _).
  exists attempts, g1, r. split_and!; done.
Defined.

Lemma total_is_sum_over_nodes_witness :
  exists attempts g1 r,
    schedule_attempts 10 (N sample_params) (sim_time sample_params)
      (lambda_rate sample_params) sample_rng = Ret (attempts, g1) /\
    run_simulation 10 sample_params "config1" sample_rng = Ret (r, g1) /\
    total_throughput_bytes r ==
      sum_over [0; 1; 2]%nat (fun n => default 0 (df_bytes_success (df r) !! n)).
Proof.
  sample_schedule Hgen. rename l into attempts, r into g1.
  destruct (total_is_sum_over_nodes 10 sample_params "config1" sample_rng
              attempts g1 Hgen) as (r & Hrun & Hnodes & _ & Hsum).
  exists attempts, g1, r. rewrite Hnodes in Hsum. split_and!; done.
Defined.

Lemma baseline_charge_spec_witness :
  exists g1 r,
    schedule_attempts 10 3 10.0 0.02 sample_rng = Ret ([], g1) /\
    run_simulation 10 {| N := 3; sim_time := 10.0; lambda_rate := 0.02 |}
      "config1" sample_rng = Ret (r, g1) /\
    res_attempts_done r = 0%nat /\
    df_bytes_sent (df r) = [0; 0; 0] /\ df_bytes_success (df r) = [0; 0; 0] /\
    exists e, df_energy_J (df r) !! 1%nat = Some e /\
              e == (I_idle * Vcc) * (10.0 / 1000.0).
Proof.
  assert (Hgen : exists g1, schedule_attempts 10 3 10.0 0.02 sample_rng = Ret ([], g1))
    by (eexists; vm_compute; reflexivity).
  destruct Hgen as [g1 Hgen].
  destruct (baseline_charge_spec 10
              {| N := 3; sim_time := 10.0; lambda_rate := 0.02 |}
              "config1" sample_rng [] g1 Hgen)
    as (r & st & Hrun & _ & _ & _ & Hempty).
  destruct (Hempty eq_refl) as (H0 & Hbs & Hbd & _ & Hen).
  exists g1, r. split_and!; try done. apply Hen. simpl. lia.
Defined.

Lemma first_attempt_completes_witness :
  exists a rest g1 r,
    schedule_attempts 10 (N sample_params) (sim_time sample_params)
      (lambda_rate sample_params) sample_rng = Ret (a :: rest, g1) /\
    collided "config2" (init_state 3) a = false /\
    run_simulation 10 sample_params "config2" sample_rng = Ret (r, g1) /\
    inject_Z size_DATA <= total_throughput_bytes r.
Proof.
  sample_schedule Hgen. rename l into attempts, r into g1.
  destruct attempts as [|a rest]; [exfalso; vm_compute in Hgen; discriminate|].
  destruct (first_attempt_completes 10 sample_params "config2" sample_rng
              a rest g1 Hgen) as (Hc & _ & st1 & r & _ & _ & _ & _ & Hrun & Htot).
  exists a, rest, g1, r. split_and!; done.
Defined.


(** * Further properties of the code *)

(** ** Who pays for an attempt *)

Ltac lookup_chain :=
  repeat first
    [ rewrite lookup_add_at_ne by (done || congruence)
    | apply lookup_add_at_eq ];
  try done.

(** An attempt whose origin or destination is not a node index aborts the
    whole loop with [IndexError], whatever follows it. *)
Theorem walk_index_error cfg n st l1 a l2 :
  sized n st -> Forall (in_range n) l1 -> ~ in_range n a ->
  walk cfg st (l1 ++ a :: l2) = Raise IndexError.
Proof.
  intros Hsz Hl1 Ha. rewrite walk_app.
  destruct (walk_returns cfg n l1 st Hsz Hl1) as (st1 & _ & -> & Hsz1 & _).
  cbn [mbind outcome_bind walk]. by rewrite (step_out_of_range cfg n).
Qed.

(** The energy of a completed exchange: the sender pays for sensing, the
    wake-up and data transmissions and the reception of the acknowledgment;
    the target pays for its half-length sensing, the three receptions of
    wake-up and data and its acknowledgment transmission; the charges are
    added in that order and no other node pays anything. *)
Theorem completed_attempt_energy cfg n st a :
  sized n st -> in_range n a -> a_node a <> a_target a ->
  collided cfg st a = false ->
  exists st' e t,
    step cfg st a = Ret st' /\
    energy st !! a_node a = Some e /\ energy st !! a_target a = Some t /\
    energy st' !! a_node a =
      Some (e + sense_charge + wakeup_tx_charge cfg + ack_rx_charge cfg +
            data_tx_charge cfg) /\
    energy st' !! a_target a =
      Some (t + sense_rx_charge + wakeup_rx_charge cfg + ack_tx_charge cfg +
            data_rx_charge cfg) /\
    forall m, m <> a_node a -> m <> a_target a ->
      energy st' !! m = energy st !! m.
Proof.
  intros Hsz Ha Hne Hc.
  pose proof (step_next_state cfg n st a Hsz Ha) as Hstep.
  destruct Hsz as (He & _). destruct Ha as [Hn Ht].
  destruct (lookup_lt_is_Some_2 (energy st) (a_node a)) as [e Hlk]; [lia|].
  destruct (lookup_lt_is_Some_2 (energy st) (a_target a)) as [t Hlt]; [lia|].
  exists (next_state cfg st a), e, t. split; [done|].
  unfold next_state. rewrite Hc. cbn [energy].
  unfold energy_after_data, energy_after_wakeup, sense_charge, sense_rx_charge,
    wakeup_tx_charge, wakeup_rx_charge, ack_tx_charge, ack_rx_charge,
    data_tx_charge, data_rx_charge.
  destruct (wakeup_choice cfg) as [W_dur I_tx].
  destruct (ack_choice cfg) as [ack_I ack_dur].
  destruct (data_choice cfg) as [data_dur data_I].
  split_and!; try done.
  - lookup_chain.
  - lookup_chain.
  - intros m Hm1 Hm2. lookup_chain.
Qed.

(** The energy of a collided attempt: the sender pays for sensing, the
    wake-up transmission and the idle timeout; the target pays only for its
    half-length sensing (it is not charged for receiving the wake-up); no
    other node pays anything. *)
Theorem collided_attempt_energy cfg n st a :
  sized n st -> in_range n a -> a_node a <> a_target a ->
  collided cfg st a = true ->
  exists st' e t,
    step cfg st a = Ret st' /\
    energy st !! a_node a = Some e /\ energy st !! a_target a = Some t /\
    energy st' !! a_node a =
      Some (e + sense_charge + wakeup_tx_charge cfg + timeout_charge) /\
    energy st' !! a_target a = Some (t + sense_rx_charge) /\
    forall m, m <> a_node a -> m <> a_target a ->
      energy st' !! m = energy st !! m.
Proof.
  intros Hsz Ha Hne Hc.
  pose proof (step_next_state cfg n st a Hsz Ha) as Hstep.
  destruct Hsz as (He & _). destruct Ha as [Hn Ht].
  destruct (lookup_lt_is_Some_2 (energy st) (a_node a)) as [e Hlk]; [lia|].
  destruct (lookup_lt_is_Some_2 (energy st) (a_target a)) as [t Hlt]; [lia|].
  exists (next_state cfg st a), e, t. split; [done|].
  unfold next_state. rewrite Hc. cbn [energy].
  unfold energy_after_wakeup, sense_charge, sense_rx_charge,
    wakeup_tx_charge, timeout_charge.
  destruct (wakeup_choice cfg) as [W_dur I_tx].
  split_and!; try done.
  - lookup_chain.
  - lookup_chain.
  - intros m Hm1 Hm2. lookup_chain.
Qed.

(** ** The ledger *)






(** The ledger is append-only: a loop over attempts keeps the old ledger as a
    prefix and appends one record per attempt plus two more per attempt that
    was not marked collided. *)
Theorem ledger_growth cfg n l : forall st,
  sized n st -> Forall (in_range n) l ->
  exists st' new,
    walk cfg st l = Ret st' /\
    transmissions st' = transmissions st ++ new /\
    length new = (length l + 2 * completed_count cfg st l)%nat.
Proof.
  induction l as [|a l IH]; intros st Hsz Hall.
  - exists st, []. rewrite app_nil_r. by split_and!.
  - apply Forall_cons in Hall as [Ha Hl].
    destruct (IH (next_state cfg st a)) as (st' & new & Hw & Hnew & Hlen);
      [by apply next_state_sized | done |].
    unfold completed_count in *. simpl.
    rewrite (step_next_state cfg n) by done. cbn [mbind outcome_bind].
    revert Hw Hnew Hlen. unfold next_state.
    destruct (collided cfg st a); cbn [transmissions negb List.filter];
      intros Hw Hnew Hlen.
    + exists st', (wakeup_record cfg a :: new). split_and!; try done.
      * by rewrite Hnew, <- app_assoc.
      * simpl. lia.
    + exists st', (wakeup_record cfg a :: ack_record cfg a :: data_record cfg a :: new).
      split_and!; try done.
      * by rewrite Hnew, <- !app_assoc.
      * simpl. lia.
Qed.

(** ** Collisions in terms of the attempts *)

Lemma walk_init_wakeups cfg n l st :
  walk cfg (init_state n) l = Ret st ->
  Forall (in_range n) l /\
  forall tr, (In tr (transmissions st) /\ tr_type tr = W) <->
             exists b, In b l /\ tr = wakeup_record cfg b.
Proof.
  intros Hw.
  pose proof (walk_Ret_inv cfg n l _ _ (init_state_sized n) Hw) as Hr.
  destruct (walk_returns cfg n l (init_state n) (init_state_sized n) Hr)
    as (st2 & new & Hw2 & _ & Hnew & Hf & _).
  rewrite Hw in Hw2. injection Hw2 as <-. cbn [init_state transmissions app] in Hnew.
  split; [done|]. intros tr. rewrite Hnew.
  assert (E : (In tr new /\ tr_type tr = W) <-> In tr (List.filter is_wakeup new)).
  { rewrite filter_In. unfold is_wakeup. destruct (tr_type tr); simpl;
      split; intros [? ?]; done. }
  rewrite E, Hf, in_map_iff. split; intros (b & H1 & H2); exists b; done.
Qed.

Lemma overlap_close cfg a b :
  overlaps (wakeup_record cfg b) (tr_start (wakeup_record cfg a))
    (tr_end (wakeup_record cfg a)) = true <->
  a_time a - fst (wakeup_choice cfg) < a_time b /\
  a_time b < a_time a + fst (wakeup_choice cfg).
Proof.
  rewrite overlaps_iff. unfold wakeup_record. cbn [tr_start tr_end].
  generalize (fst (wakeup_choice cfg)), tau_sense, (a_time a), (a_time b).
  intros W_dur s ta tb. split.
  - intros H. split; apply Qnot_le_lt; intros Hle; apply H; [left|right]; lra.
  - intros [H1 H2] [H|H]; lra.
Qed.

Lemma collided_close_iff cfg n l a st :
  walk cfg (init_state n) l = Ret st ->
  collided cfg st a = true <->
  exists b, In b l /\ close_in_time (fst (wakeup_choice cfg)) a b.
Proof.
  intros Hw. destruct (walk_init_wakeups cfg n l st Hw) as [_ Hled].
  unfold collided. rewrite collision_check_app_last, scan_true_iff. split.
  - intros (tr & Hin & Ht & Hty & Hov).
    destruct (proj1 (Hled tr) (conj Hin Hty)) as (b & Hb & ->).
    exists b. split; [done|]. apply overlap_close in Hov. by split.
  - intros (b & Hb & Ht & Hclose). exists (wakeup_record cfg b).
    destruct (proj2 (Hled (wakeup_record cfg b))) as [Hin Hty]; [by exists b|].
    split_and!; try done. by apply overlap_close.
Qed.


Lemma marks_mono cfg1 cfg2 n l : forall earlier st1 st2,
  fst (wakeup_choice cfg1) <= fst (wakeup_choice cfg2) ->
  walk cfg1 (init_state n) earlier = Ret st1 ->
  walk cfg2 (init_state n) earlier = Ret st2 ->
  Forall (in_range n) l ->
  Forall2 (fun b1 b2 : bool => b1 = true -> b2 = true)
    (marks cfg1 st1 l) (marks cfg2 st2 l).
Proof.
  induction l as [|a l IH]; intros earlier st1 st2 HW H1 H2 Hall; [constructor|].
  apply Forall_cons in Hall as [Ha Hl].
  assert (Hs1 : sized n st1).
  { pose proof (walk_Ret_inv cfg1 n earlier _ _ (init_state_sized n) H1) as Hr.
    destruct (walk_returns cfg1 n earlier _ (init_state_sized n) Hr)
      as (? & ? & E & ? & _). congruence. }
  assert (Hs2 : sized n st2).
  { pose proof (walk_Ret_inv cfg2 n earlier _ _ (init_state_sized n) H2) as Hr.
    destruct (walk_returns cfg2 n earlier _ (init_state_sized n) Hr)
      as (? & ? & E & ? & _). congruence. }
  simpl. rewrite (step_next_state cfg1 n), (step_next_state cfg2 n) by done.
  constructor.
  - rewrite (collided_close_iff cfg1 n earlier a st1 H1),
      (collided_close_iff cfg2 n earlier a st2 H2).
    intros (b & Hb & Ht & Hlo & Hhi). exists b. split; [done|]. split; [done|].
    split; lra.
  - apply (IH (earlier ++ [a])); try done.
    + rewrite walk_app, H1. simpl. by rewrite (step_next_state cfg1 n).
    + rewrite walk_app, H2. simpl. by rewrite (step_next_state cfg2 n).
Qed.

Lemma Forall2_impl_antisym (l1 l2 : list bool) :
  Forall2 (fun b1 b2 : bool => b1 = true -> b2 = true) l1 l2 ->
  Forall2 (fun b1 b2 : bool => b1 = true -> b2 = true) l2 l1 ->
  l1 = l2.
Proof.
  intros H. induction H as [|b1 b2 l1 l2 Hb _ IH]; intros H'; [done|].
  inversion H' as [|? ? ? ? Hb' Hl']; subst. f_equal; [|by apply IH].
  destruct b1, b2; try reflexivity; [symmetry; by apply Hb | by apply Hb'].
Qed.

Lemma completed_mono (l1 l2 : list bool) :
  Forall2 (fun b1 b2 : bool => b1 = true -> b2 = true) l1 l2 ->
  (length (List.filter negb l2) <= length (List.filter negb l1))%nat.
Proof.
  induction 1 as [|b1 b2 l1 l2 Hb _ IH]; simpl; [lia|].
  destruct b1, b2; simpl; try lia; discriminate (Hb eq_refl).
Qed.

(** On the same attempts, the sequential and the hybrid configuration mark
    exactly the same attempts as collided (their wake-up bursts have the same
    length), and every attempt the simultaneous configuration marks collided
    is marked collided by the other two; so the simultaneous configuration
    completes at least as many attempts. *)
Theorem collisions_across_configs n l :
  Forall (in_range n) l ->
  marks "config1" (init_state n) l = marks "config3" (init_state n) l /\
  Forall2 (fun b2 b1 : bool => b2 = true -> b1 = true)
    (marks "config2" (init_state n) l) (marks "config1" (init_state n) l) /\
  completed_count "config1" (init_state n) l =
    completed_count "config3" (init_state n) l /\
  (completed_count "config1" (init_state n) l <=
   completed_count "config2" (init_state n) l)%nat.
Proof.
  intros Hl.
  assert (H13 : marks "config1" (init_state n) l = marks "config3" (init_state n) l).
  { apply Forall2_impl_antisym;
      apply (marks_mono _ _ n l []); try done; by apply Qle_bool_imp_le. }
  assert (H21 : Forall2 (fun b2 b1 : bool => b2 = true -> b1 = true)
            (marks "config2" (init_state n) l) (marks "config1" (init_state n) l)).
  { apply (marks_mono _ _ n l []); try done; by apply Qle_bool_imp_le. }
  split_and!; try done.
  - unfold completed_count. by rewrite H13.
  - unfold completed_count. by apply completed_mono.
Qed.

(** ** Byte totals *)

Lemma column_sum_cons x l : column_sum (x :: l) == x + column_sum l.
Proof.
  unfold column_sum. simpl.
  rewrite (fold_left_Qplus_sum_over l (0 + x)), (fold_left_Qplus_sum_over l 0).
  ring.
Qed.

Lemma column_sum_add_at l : forall i c,
  (i < length l)%nat -> column_sum (add_at l i c) == column_sum l + c.
Proof.
  induction l as [|x l IH]; intros i c Hi; simpl in Hi; [lia|].
  destruct i as [|i].
  - change (add_at (x :: l) 0 c) with ((x + c) :: l).
    rewrite !column_sum_cons. ring.
  - change (add_at (x :: l) (S i) c) with (x :: add_at l i c).
    rewrite !column_sum_cons, IH by lia. ring.
Qed.

Lemma walk_byte_sums cfg n l : forall st,
  sized n st -> Forall (in_range n) l ->
  exists st',
    walk cfg st l = Ret st' /\
    column_sum (bytes_success st') ==
      column_sum (bytes_success st) +
      inject_Z size_DATA * inject_Z (Z.of_nat (completed_count cfg st l)) /\
    column_sum (bytes_sent st') ==
      column_sum (bytes_sent st) +
      inject_Z size_W * inject_Z (Z.of_nat (collided_count cfg st l)) +
      inject_Z (size_W + size_ACK + size_DATA) *
        inject_Z (Z.of_nat (completed_count cfg st l)).
Proof.
  induction l as [|a l IH]; intros st Hsz Hall.
  - exists st. split; [done|]. unfold completed_count, collided_count. simpl.
    split; ring.
  - apply Forall_cons in Hall as [Ha Hl].
    destruct (IH (next_state cfg st a)) as (st' & Hw & Hd & Hs);
      [by apply next_state_sized | done |].
    exists st'. simpl. rewrite (step_next_state cfg n) by done.
    cbn [mbind outcome_bind]. split; [done|].
    rewrite Hd, Hs. unfold completed_count, collided_count. simpl.
    rewrite (step_next_state cfg n) by done.
    destruct Hsz as (_ & Hbs & Hbd). destruct Ha as [Hn _].
    unfold next_state. destruct (collided cfg st a);
      cbn [bytes_sent bytes_success List.filter negb length];
      rewrite ?column_sum_add_at by lia; rewrite ?inject_Z_S; split; ring.
Qed.

(** The network-wide totals follow from the two counts alone: the bytes
    delivered are [size_DATA] per completed attempt, the bytes sent are
    [size_W] per collided attempt plus [size_W + size_ACK + size_DATA] per
    completed one. *)
Theorem byte_totals_from_counts fuel p cfg g attempts g1 :
  schedule_attempts fuel (N p) (sim_time p) (lambda_rate p) g = Ret (attempts, g1) ->
  exists r,
    run_simulation fuel p cfg g = Ret (r, g1) /\
    total_throughput_bytes r ==
      inject_Z size_DATA *
        inject_Z (Z.of_nat (completed_count cfg (init_state (N p)) attempts)) /\
    column_sum (df_bytes_sent (df r)) ==
      inject_Z size_W *
        inject_Z (Z.of_nat (collided_count cfg (init_state (N p)) attempts)) +
      inject_Z (size_W + size_ACK + size_DATA) *
        inject_Z (Z.of_nat (completed_count cfg (init_state (N p)) attempts)).
Proof.
  intros Hgen.
  destruct (run_simulation_returns fuel p cfg g attempts g1 Hgen)
    as (st & Hw & _ & Hrun).
  pose proof (schedule_attempts_in_range _ _ _ _ _ _ _ Hgen) as Hr.
  destruct (walk_byte_sums cfg (N p) attempts (init_state (N p))
              (init_state_sized _) Hr) as (st' & Hw' & Hd & Hs).
  rewrite Hw in Hw'. injection Hw' as <-.
  exists (result_of p st). split; [done|].
  cbn [result_of total_throughput_bytes df df_bytes_sent].
  rewrite Hd, Hs. cbn [init_state bytes_success bytes_sent].
  rewrite column_sum_zeros. split; ring.
Qed.

Lemma next_state_goodput cfg st a :
  Forall2 goodput_bounded (bytes_success st) (bytes_sent st) ->
  Forall2 goodput_bounded (bytes_success (next_state cfg st a))
    (bytes_sent (next_state cfg st a)).
Proof.
  intros H. unfold next_state.
  destruct (collided cfg st a); cbn [bytes_sent bytes_success]; unfold add_at.
  - apply Forall2_alter_r; [done|]. intros d s _ _. unfold goodput_bounded.
    change (inject_Z size_W) with 13. change (inject_Z size_DATA) with 24.
    generalize (inject_Z (size_W + size_ACK + size_DATA) * d). intros; lra.
  - apply Forall2_alter; [done|]. intros d s _ _. unfold goodput_bounded.
    change (inject_Z (size_W + size_ACK + size_DATA)) with 46.
    change (inject_Z size_DATA) with 24. intros; lra.
Qed.

Lemma walk_goodput cfg n l : forall st,
  sized n st -> Forall (in_range n) l ->
  Forall2 goodput_bounded (bytes_success st) (bytes_sent st) ->
  exists st', walk cfg st l = Ret st' /\
    Forall2 goodput_bounded (bytes_success st') (bytes_sent st').
Proof.
  induction l as [|a l IH]; intros st Hsz Hall Hinv.
  - exists st. by split.
  - apply Forall_cons in Hall as [Ha Hl]. simpl.
    rewrite (step_next_state cfg n) by done. cbn [mbind outcome_bind].
    apply IH; [by apply next_state_sized | done | by apply next_state_goodput].
Qed.

(** At every point of a run, for every node, the bytes delivered are at most
    the payload share of the bytes sent, [46 * delivered <= 24 * sent] with
    the module's sizes; in particular no node has delivered more than it
    sent. *)
Theorem delivered_share_bounded cfg n l :
  Forall (in_range n) l ->
  exists st,
    walk cfg (init_state n) l = Ret st /\
    Forall2 goodput_bounded (bytes_success st) (bytes_sent st) /\
    Forall2 Qle (bytes_success st) (bytes_sent st).
Proof.
  intros Hl.
  destruct (walk_goodput cfg n l (init_state n) (init_state_sized n) Hl)
    as (st & Hw & Hg).
  { cbn [init_state bytes_success bytes_sent]. clear Hl.
    induction n as [|k IH]; simpl; constructor; [|exact IH].
    unfold goodput_bounded. by apply Qle_bool_imp_le. }
  exists st. split_and!; try done.
  assert (Hnn : Forall (Qle 0) (bytes_sent st)).
  { eapply (totals_nonneg_mono (init_state n) st); [apply init_state_nonneg|].
    eapply walk_mono; [apply init_state_sized | exact Hw]. }
  clear Hw. induction Hg as [|d s ld ls Hds _ IH]; [constructor|].
  inversion Hnn as [|? ? Hs Hnn']; subst. constructor; [|by apply IH].
  unfold goodput_bounded in Hds.
  change (inject_Z (size_W + size_ACK + size_DATA)) with 46 in Hds.
  change (inject_Z size_DATA) with 24 in Hds. lra.
Qed.

(** ** Nodes that take no part *)

Lemma next_state_frame cfg st a m :
  uninvolved m a ->
  energy (next_state cfg st a) !! m = energy st !! m /\
  bytes_sent (next_state cfg st a) !! m = bytes_sent st !! m /\
  bytes_success (next_state cfg st a) !! m = bytes_success st !! m.
Proof.
  intros [Hn Ht]. unfold next_state, energy_after_data, energy_after_wakeup.
  destruct (wakeup_choice cfg), (ack_choice cfg), (data_choice cfg).
  destruct (collided cfg st a); cbn [energy bytes_sent bytes_success];
    split_and!; lookup_chain.
Qed.

Lemma walk_frame cfg n m l : forall st st',
  sized n st -> Forall (uninvolved m) l -> walk cfg st l = Ret st' ->
  energy st' !! m = energy st !! m /\
  bytes_sent st' !! m = bytes_sent st !! m /\
  bytes_success st' !! m = bytes_success st !! m.
Proof.
  induction l as [|a l IH]; intros st st' Hsz Hun Hw; simpl in Hw.
  - by injection Hw as <-.
  - apply Forall_cons in Hun as [Ha Hl].
    apply bind_Ret in Hw as (st1 & H1 & Hw).
    apply (step_Ret_inv cfg n) in H1 as [_ ->]; [|done].
    destruct (IH _ _ (next_state_sized cfg n st a Hsz) Hl Hw) as (E1 & E2 & E3).
    destruct (next_state_frame cfg st a m Ha) as (F1 & F2 & F3).
    split_and!; congruence.
Qed.

(** A node that is neither origin nor destination of any generated attempt
    ends the run with exactly the baseline energy and with no bytes sent or
    delivered. *)
Theorem idle_node_result fuel p cfg g attempts g1 m :
  schedule_attempts fuel (N p) (sim_time p) (lambda_rate p) g = Ret (attempts, g1) ->
  (m < N p)%nat -> Forall (uninvolved m) attempts ->
  exists r,
    run_simulation fuel p cfg g = Ret (r, g1) /\
    df_energy_J (df r) !! m = Some (0 + baseline_charge (sim_time p)) /\
    df_bytes_sent (df r) !! m = Some 0 /\
    df_bytes_success (df r) !! m = Some 0.
Proof.
  intros Hgen Hm Hun.
  destruct (run_simulation_returns fuel p cfg g attempts g1 Hgen)
    as (st & Hw & _ & Hrun).
  destruct (walk_frame cfg (N p) m attempts _ _ (init_state_sized _) Hun Hw)
    as (E1 & E2 & E3).
  cbn [init_state energy bytes_sent bytes_success] in E1, E2, E3.
  rewrite lookup_repeat in E1, E2, E3 by done.
  exists (result_of p st). split; [done|].
  cbn [result_of df df_energy_J df_bytes_sent df_bytes_success].
  split_and!; try done. by rewrite list_lookup_fmap, E1.
Qed.

(** ** Draws consumed by the generator *)

Lemma arrivals_cursors fuel N node T lam : forall t acc g out g',
  arrivals fuel N node T lam t acc g = Ret (out, g') ->
  exists new,
    out = acc ++ new /\
    exp_src g' = exp_src g /\ choice_src g' = choice_src g /\
    choice_pos g' = (choice_pos g + length new)%nat /\
    (t < T -> exp_pos g' = (exp_pos g + length new + 1)%nat) /\
    (~ t < T -> new = [] /\ g' = g).
Proof.
  induction fuel as [|fuel IH]; intros t acc g out g' H; simpl in H.
  - destruct (QMicromega.Qlt_bool t T) eqn:Ht; [discriminate|].
    injection H as <- <-. apply Qlt_bool_false_iff in Ht.
    exists []. rewrite app_nil_r. simpl. split_and!; try done; intros; lia.
  - destruct (QMicromega.Qlt_bool t T) eqn:Ht.
    2:{ injection H as <- <-. apply Qlt_bool_false_iff in Ht.
        exists []. rewrite app_nil_r. simpl. split_and!; try done; intros; lia. }
    apply QMicromega.Qlt_bool_iff in Ht.
    unfold py_div in H. destruct (Qeq_bool lam 0); [discriminate|].
    cbn [mbind outcome_bind] in H. unfold exponential in H.
    destruct (QMicromega.Qlt_bool (1.0 / lam) 0); [discriminate|].
    cbn [mbind outcome_bind] in H.
    set (t1 := t + 1.0 / lam * exp_src g (exp_pos g)) in *.
    destruct (Qle_bool T t1) eqn:Hov.
    + injection H as <- <-. exists []. rewrite app_nil_r. simpl.
      split_and!; try done; intros; lia.
    + apply Qle_bool_false_iff in Hov.
      apply bind_Ret in H as ([target g2] & Hch & H).
      apply choice_inv in Hch as [_ ->].
      apply IH in H as (new & -> & Hes & Hcs & Hcp & Hep & _).
      cbn [advance_choice advance_exp exp_src exp_pos choice_src choice_pos] in *.
      exists ({| a_node := node; a_time := t1; a_target := target |} :: new).
      split_and!; try done.
      * by rewrite <- app_assoc.
      * simpl. lia.
      * intros _. rewrite (Hep Hov). simpl. lia.
Qed.

Lemma for_nodes_cursors fuel N T lam nodes : forall acc g out g',
  for_nodes fuel N nodes T lam acc g = Ret (out, g') ->
  exists new,
    out = acc ++ new /\
    exp_src g' = exp_src g /\ choice_src g' = choice_src g /\
    choice_pos g' = (choice_pos g + length new)%nat /\
    (0 < T -> exp_pos g' = (exp_pos g + length new + length nodes)%nat) /\
    (T <= 0 -> new = [] /\ g' = g).
Proof.
  induction nodes as [|node rest IH]; intros acc g out g' H; simpl in H.
  - injection H as <- <-. exists []. rewrite app_nil_r. simpl.
    split_and!; try done; intros; lia.
  - apply bind_Ret in H as ([acc1 g1] & Harr & H).
    apply arrivals_cursors in Harr as (new1 & -> & Hes1 & Hcs1 & Hcp1 & Hep1 & Hno1).
    apply IH in H as (new2 & -> & Hes2 & Hcs2 & Hcp2 & Hep2 & Hno2).
    exists (new1 ++ new2). rewrite length_app. split_and!.
    + by rewrite app_assoc.
    + congruence.
    + congruence.
    + lia.
    + intros HT. rewrite (Hep2 HT), Hep1 by lra. simpl. lia.
    + intros HT. destruct Hno1 as [-> ->]; [lra|].
      destruct (Hno2 HT) as [-> ->]. done.
Qed.

Lemma schedule_attempts_cursors fuel N T lam g attempts g' :
  schedule_attempts fuel N T lam g = Ret (attempts, g') ->
  exp_src g' = exp_src g /\ choice_src g' = choice_src g /\
  choice_pos g' = (choice_pos g + length attempts)%nat /\
  (0 < T -> exp_pos g' = (exp_pos g + length attempts + N)%nat).
Proof.
  intros H. unfold schedule_attempts in H.
  apply bind_Ret in H as ([raw g1] & Hfor & H). injection H as <- <-.
  apply for_nodes_cursors in Hfor as (new & Hraw & Hes & Hcs & Hcp & Hep & _).
  simpl in Hraw. subst new.
  rewrite (Permutation_length (sort_by_time_perm raw)), length_seq in *.
  by split_and!.
Qed.

(** The generator leaves both draw sequences untouched and only moves their
    cursors: it takes one choice draw per attempt kept and, for a positive
    horizon, one exponential draw per attempt kept plus one per node (the
    overshoot that ends the node's loop); for a non-positive horizon it takes
    no draw at all. *)
Theorem draws_consumed fuel N T lam g attempts g' :
  schedule_attempts fuel N T lam g = Ret (attempts, g') ->
  exp_src g' = exp_src g /\ choice_src g' = choice_src g /\
  choice_pos g' = (choice_pos g + length attempts)%nat /\
  (0 < T -> exp_pos g' = (exp_pos g + length attempts + N)%nat) /\
  (T <= 0 -> attempts = [] /\ g' = g).
Proof.
  intros H.
  destruct (schedule_attempts_cursors _ _ _ _ _ _ _ H) as (H1 & H2 & H3 & H4).
  split_and!; try done.
  intros HT. rewrite schedule_attempts_no_horizon in H by done.
  by injection H as <- <-.
Qed.

(** ** The loop over configurations *)

Lemma run_simulation_inv fuel p cfg g r g1 :
  run_simulation fuel p cfg g = Ret (r, g1) ->
  exists attempts,
    schedule_attempts fuel (N p) (sim_time p) (lambda_rate p) g = Ret (attempts, g1) /\
    res_attempts_done r = length attempts.
Proof.
  intros Hrun. pose proof Hrun as Hrun'. unfold run_simulation in Hrun'.
  apply bind_Ret in Hrun' as ([attempts g2] & Hgen & Hrest).
  destruct (run_simulation_returns fuel p cfg g attempts g2 Hgen)
    as (st & Hw & _ & Hrun2).
  rewrite Hrun in Hrun2. injection Hrun2 as -> ->.
  exists attempts. split; [done|].
  pose proof (schedule_attempts_in_range _ _ _ _ _ _ _ Hgen) as Hr.
  destruct (walk_returns cfg (N p) attempts _ (init_state_sized _) Hr)
    as (st' & _ & Hw' & _ & _ & _ & Hc).
  rewrite Hw in Hw'. injection Hw' as <-. exact Hc.
Qed.

Lemma run_cursors fuel p cfg g r g1 :
  run_simulation fuel p cfg g = Ret (r, g1) ->
  exp_src g1 = exp_src g /\ choice_src g1 = choice_src g /\
  choice_pos g1 = (choice_pos g + res_attempts_done r)%nat /\
  (0 < sim_time p ->
   exp_pos g1 = (exp_pos g + res_attempts_done r + N p)%nat).
Proof.
  intros Hrun. apply run_simulation_inv in Hrun as (attempts & Hgen & ->).
  apply schedule_attempts_cursors in Hgen. exact Hgen.
Qed.

(** When the script's loop returns, it has run the three configurations in
    the order of [configs], each on attempts drawn afresh from where the
    previous run left the two generators; the dict holds exactly the three
    results under their configuration names, and the loop as a whole has
    taken one choice draw per attempt processed and, for a positive horizon,
    one exponential draw per attempt processed plus one per node and run. *)
Theorem run_all_spec fuel p g results g' :
  run_all fuel p g = Ret (results, g') ->
  exists r1 r2 r3 g1 g2,
    run_simulation fuel p "config1" g = Ret (r1, g1) /\
    run_simulation fuel p "config2" g1 = Ret (r2, g2) /\
    run_simulation fuel p "config3" g2 = Ret (r3, g') /\
    results !! "config1"%string = Some r1 /\
    results !! "config2"%string = Some r2 /\
    results !! "config3"%string = Some r3 /\
    (forall k : string, ~ In k configs -> results !! k = None) /\
    exp_src g' = exp_src g /\ choice_src g' = choice_src g /\
    choice_pos g' =
      (choice_pos g + (res_attempts_done r1 + res_attempts_done r2 +
                       res_attempts_done r3))%nat /\
    (0 < sim_time p ->
     exp_pos g' =
       (exp_pos g + (res_attempts_done r1 + res_attempts_done r2 +
                     res_attempts_done r3) + 3 * N p)%nat).
Proof.
  unfold run_all, configs. cbn [run_configs]. intros H.
  apply bind_Ret in H as ([r1 g1] & H1 & H).
  apply bind_Ret in H as ([r2 g2] & H2 & H).
  apply bind_Ret in H as ([r3 g3] & H3 & H). injection H as <- <-.
  destruct (run_cursors _ _ _ _ _ _ H1) as (E1 & C1 & P1 & X1).
  destruct (run_cursors _ _ _ _ _ _ H2) as (E2 & C2 & P2 & X2).
  destruct (run_cursors _ _ _ _ _ _ H3) as (E3 & C3 & P3 & X3).
  exists r1, r2, r3, g1, g2. split_and!; try done.
  - intros k Hk. simpl in Hk.
    rewrite !lookup_insert_ne by (intros E; apply Hk; rewrite <- E; tauto).
    apply lookup_empty.
  - congruence.
  - congruence.
  - lia.
  - intros HT. rewrite (X3 HT), (X2 HT), (X1 HT). lia.
Qed.

(** ** The sort keeps each node's attempts in generation order *)

Lemma insert_by_time_head a l :
  Forall (time_le a) l -> insert_by_time a l = a :: l.
Proof.
  intros H. destruct H as [|b l Hb _]; simpl; [done|].
  by rewrite (proj2 (Qle_bool_iff _ _) Hb).
Qed.

Lemma sort_by_time_sorted_id l :
  StronglySorted time_le l -> sort_by_time l = l.
Proof.
  induction 1 as [|a l _ IH Ha]; simpl; [done|].
  rewrite IH. by apply insert_by_time_head.
Qed.

Lemma Forall_by_node (P : attempt -> Prop) node l :
  Forall P l -> Forall P (by_node node l).
Proof.
  induction 1 as [|a l Ha _ IH]; simpl; [constructor|].
  destruct (a_node a =? node)%nat; [by constructor | done].
Qed.

Lemma by_node_insert node a l :
  StronglySorted time_le l ->
  by_node node (insert_by_time a l) =
    if (a_node a =? node)%nat then insert_by_time a (by_node node l)
    else by_node node l.
Proof.
  induction 1 as [|b l Hs IH Hb]; simpl.
  - by destruct (a_node a =? node)%nat.
  - destruct (Qle_bool (a_time a) (a_time b)) eqn:E.
    + apply Qle_bool_iff in E. cbn [by_node List.filter].
      destruct (a_node a =? node)%nat; [|done].
      symmetry. apply insert_by_time_head.
      apply (Forall_by_node (time_le a) node (b :: l)).
      constructor; [done|]. eapply Forall_impl; [exact Hb|].
      intros c Hc. unfold time_le in *. lra.
    + cbn [by_node List.filter]. fold (by_node node (insert_by_time a l)).
      fold (by_node node l). rewrite IH.
      destruct (a_node b =? node)%nat, (a_node a =? node)%nat; try done.
      simpl. by rewrite E.
Qed.

Lemma by_node_sort node l :
  by_node node (sort_by_time l) = sort_by_time (by_node node l).
Proof.
  induction l as [|a l IH]; simpl; [done|].
  rewrite by_node_insert by apply sort_by_time_sorted. rewrite IH.
  by destruct (a_node a =? node)%nat.
Qed.

Lemma arrivals_increasing fuel N node T lam : forall t acc g out g',
  0 < lam -> (forall k, 0 <= exp_src g k) ->
  arrivals fuel N node T lam t acc g = Ret (out, g') ->
  exists new,
    out = acc ++ new /\ StronglySorted time_le new /\
    Forall (fun a => t <= a_time a) new.
Proof.
  intros t acc g out g' Hlam. revert t acc g out g'.
  assert (Hinv : 0 < / lam) by (by apply Qinv_lt_0_compat).
  induction fuel as [|fuel IH]; intros t acc g out g' Hsrc H; simpl in H.
  - destruct (QMicromega.Qlt_bool t T); [discriminate|].
    injection H as <- <-. exists []. rewrite app_nil_r. by repeat constructor.
  - destruct (QMicromega.Qlt_bool t T).
    2:{ injection H as <- <-. exists []. rewrite app_nil_r. by repeat constructor. }
    unfold py_div in H. destruct (Qeq_bool lam 0); [discriminate|].
    cbn [mbind outcome_bind] in H. unfold exponential in H.
    destruct (QMicromega.Qlt_bool (1.0 / lam) 0); [discriminate|].
    cbn [mbind outcome_bind] in H.
    assert (Hgap : 0 <= 1.0 / lam * exp_src g (exp_pos g)).
    { apply Qmult_le_0_compat; [unfold Qdiv; lra | apply Hsrc]. }
    set (t1 := t + 1.0 / lam * exp_src g (exp_pos g)) in *.
    destruct (Qle_bool T t1).
    + injection H as <- <-. exists []. rewrite app_nil_r. by repeat constructor.
    + apply bind_Ret in H as ([target g2] & Hch & H).
      apply choice_inv in Hch as [_ ->].
      apply IH in H as (new & -> & Hs & Hge); [|exact Hsrc].
      exists ({| a_node := node; a_time := t1; a_target := target |} :: new).
      split_and!.
      * by rewrite <- app_assoc.
      * constructor; [done|]. eapply Forall_impl; [exact Hge|].
        intros c Hc. unfold time_le. simpl. done.
      * constructor; [simpl; unfold t1; lra|]. eapply Forall_impl; [exact Hge|].
        intros c Hc. simpl in Hc. unfold t1 in Hc. lra.
Qed.

Lemma for_nodes_increasing fuel N T lam nodes : forall acc g out g',
  0 < lam -> (forall k, 0 <= exp_src g k) -> List.NoDup nodes ->
  for_nodes fuel N nodes T lam acc g = Ret (out, g') ->
  exists new,
    out = acc ++ new /\
    forall node, StronglySorted time_le (by_node node new).
Proof.
  induction nodes as [|node rest IH]; intros acc g out g' Hlam Hsrc Hnd H.
  - simpl in H. injection H as <- <-. exists []. rewrite app_nil_r.
    split; [done|]. intros; constructor.
  - pose proof H as H'. simpl in H.
    apply bind_Ret in H as ([acc1 g1] & Harr & H).
    pose proof Harr as Harr'.
    apply arrivals_spec in Harr' as (new1 & m & -> & _ & Hall1 & _ & _ & Hes & _).
    apply arrivals_increasing in Harr as (new1' & E1 & Hs1 & _); try done.
    apply app_inv_head in E1. subst new1'.
    apply List.NoDup_cons_iff in Hnd as [Hnotin Hnd].
    pose proof H as Hfor.
    apply for_nodes_spec in Hfor as (new2 & -> & Hall2 & _ & _); [|done].
    apply IH in H as (new2' & E2 & Hs2); try done.
    2:{ intros k. rewrite Hes. apply Hsrc. }
    apply app_inv_head in E2. subst new2'.
    exists (new1 ++ new2). split; [by rewrite app_assoc|].
    intros node'. rewrite by_node_app.
    destruct (decide (node' = node)) as [->|Hne].
    + rewrite by_node_all, by_node_none, app_nil_r; [done| |].
      * eapply Forall_impl; [exact Hall2|]. intros a (Hin & _) Heq.
        by rewrite Heq in Hin.
      * eapply Forall_impl; [exact Hall1|]. by intros a (? & _).
    + rewrite (by_node_none node' new1), app_nil_l; [apply Hs2|].
      eapply Forall_impl; [exact Hall1|]. intros a (Heq & _). by rewrite Heq.
Qed.

(** With a positive rate and non-negative draws, sorting the merged list by
    time does not reorder the attempts of any single node: in the stream the
    walker receives, each node's attempts are in the order they were
    generated, with non-decreasing times that are the running sums of that
    node's gaps up to the horizon. *)
Theorem sort_keeps_generation_order fuel N T lam g attempts g' :
  0 < lam -> (forall k, 0 <= exp_src g k) ->
  schedule_attempts fuel N T lam g = Ret (attempts, g') ->
  exists raw,
    attempts = sort_by_time raw /\
    forall node,
      by_node node attempts = by_node node raw /\
      StronglySorted time_le (by_node node attempts) /\
      ((node < N)%nat ->
       renewal_of T (1.0 / lam) (exp_src g) (map a_time (by_node node attempts))).
Proof.
  intros Hlam Hsrc H. pose proof H as Hgen. unfold schedule_attempts in H.
  apply bind_Ret in H as ([raw g1] & Hfor & H). injection H as <- <-.
  pose proof Hfor as Hfor'.
  apply for_nodes_increasing in Hfor' as (new & E & Hs); try done;
    [|apply seq_NoDup].
  simpl in E. subst new.
  apply for_nodes_spec in Hfor as (new & E & _ & Hren & _); [|apply seq_NoDup].
  simpl in E. subst new.
  exists raw. split; [done|]. intros node.
  assert (Eq : by_node node (sort_by_time raw) = by_node node raw).
  { rewrite by_node_sort. apply sort_by_time_sorted_id, Hs. }
  rewrite Eq. split_and!; try done.
  intros Hnode. apply Hren, in_seq. lia.
Qed.

(** ** Collisions in the generated stream *)


(** ** The further theorems at sample inputs *)

Lemma walk_index_error_witness :
  sized 3 (init_state 3) /\ Forall (in_range 3) [sample_a1] /\
  ~ in_range 3 sample_stray /\
  walk "config1" (init_state 3) ([sample_a1] ++ sample_stray :: [sample_a2]) =
    Raise IndexError.
Proof.
  assert (Hs : sized 3 (init_state 3)) by (vm_compute; auto).
  assert (Hr : Forall (in_range 3) [sample_a1])
    by (repeat constructor; vm_compute; lia).
  assert (Hn : ~ in_range 3 sample_stray) by (vm_compute; lia).
  pose proof (walk_index_error "config1" 3 (init_state 3) [sample_a1]
                sample_stray [sample_a2] Hs Hr Hn) as H.
  split_and!; [exact Hs | exact Hr | exact Hn | exact H].
Defined.

Lemma completed_attempt_energy_witness :
  sized 3 (init_state 3) /\ in_range 3 sample_a1 /\
  a_node sample_a1 <> a_target sample_a1 /\
  collided "config1" (init_state 3) sample_a1 = false /\
  exists st',
    step "config1" (init_state 3) sample_a1 = Ret st' /\
    energy st' !! 2%nat = Some 0.
Proof.
  assert (Hs : sized 3 (init_state 3)) by (vm_compute; auto).
  assert (Hr : in_range 3 sample_a1) by (vm_compute; lia).
  assert (Hne : a_node sample_a1 <> a_target sample_a1) by (vm_compute; lia).
  assert (Hc : collided "config1" (init_state 3) sample_a1 = false) by reflexivity.
  destruct (completed_attempt_energy "config1" 3 (init_state 3) sample_a1
              Hs Hr Hne Hc) as (st' & e & t & Hstep & _ & _ & _ & _ & Hframe).
  split_and!; try done. exists st'. split; [done|].
  rewrite (Hframe 2%nat) by (vm_compute; lia). reflexivity.
Defined.

Lemma collided_attempt_energy_witness :
  sized 3 sample_st1 /\ in_range 3 sample_a2 /\
  a_node sample_a2 <> a_target sample_a2 /\
  collided "config1" sample_st1 sample_a2 = true /\
  exists st' t,
    step "config1" sample_st1 sample_a2 = Ret st' /\
    energy sample_st1 !! 1%nat = Some t /\
    energy st' !! 1%nat = Some (t + sense_rx_charge).
Proof.
  assert (Hs : sized 3 sample_st1) by (vm_compute; auto).
  assert (Hr : in_range 3 sample_a2) by (vm_compute; lia).
  assert (Hne : a_node sample_a2 <> a_target sample_a2) by (vm_compute; lia).
  assert (Hc : collided "config1" sample_st1 sample_a2 = true) by reflexivity.
  destruct (collided_attempt_energy "config1" 3 sample_st1 sample_a2
              Hs Hr Hne Hc) as (st' & e & t & Hstep & _ & Ht & _ & Ht' & _).
  split_and!; try done. exists st', t. split_and!; done.
Defined.



Lemma ledger_growth_witness :
  sized 3 (init_state 3) /\ Forall (in_range 3) [sample_a1; sample_a2] /\
  exists st' new,
    walk "config1" (init_state 3) [sample_a1; sample_a2] = Ret st' /\
    transmissions st' = new /\ length new = 4%nat.
Proof.
  assert (Hs : sized 3 (init_state 3)) by (vm_compute; auto).
  assert (Hr : Forall (in_range 3) [sample_a1; sample_a2])
    by (repeat constructor; vm_compute; lia).
  destruct (ledger_growth "config1" 3 [sample_a1; sample_a2] (init_state 3) Hs Hr)
    as (st' & new & Hw & Hnew & Hlen).
  split_and!; try done. exists st', new. split_and!; try done.
Defined.


Lemma collisions_across_configs_witness :
  Forall (in_range 3) [sample_a1; sample_a2] /\
  marks "config1" (init_state 3) [sample_a1; sample_a2] =
    marks "config3" (init_state 3) [sample_a1; sample_a2] /\
  (completed_count "config1" (init_state 3) [sample_a1; sample_a2] <=
   completed_count "config2" (init_state 3) [sample_a1; sample_a2])%nat.
Proof.
  assert (Hr : Forall (in_range 3) [sample_a1; sample_a2])
    by (repeat constructor; vm_compute; lia).
  destruct (collisions_across_configs 3 [sample_a1; sample_a2] Hr)
    as (H13 & _ & _ & Hle).
  split_and!; done.
Defined.

Lemma byte_totals_from_counts_witness :
  exists attempts g1 r,
    schedule_attempts 10 (N sample_params) (sim_time sample_params)
      (lambda_rate sample_params) sample_rng = Ret (attempts, g1) /\
    run_simulation 10 sample_params "config1" sample_rng = Ret (r, g1) /\
    total_throughput_bytes r ==
      inject_Z size_DATA *
        inject_Z (Z.of_nat (completed_count "config1" (init_state 3) attempts)).
Proof.
  sample_schedule Hgen. rename l into attempts, r into g1.
  destruct (byte_totals_from_counts 10 sample_params "config1" sample_rng
              attempts g1 Hgen) as (r & Hrun & Hd & _).
  exists attempts, g1, r. split_and!; done.
Defined.

Lemma delivered_share_bounded_witness :
  Forall (in_range 3) [sample_a1; sample_a2] /\
  exists st,
    walk "config1" (init_state 3) [sample_a1; sample_a2] = Ret st /\
    Forall2 Qle (bytes_success st) (bytes_sent st).
Proof.
  assert (Hr : Forall (in_range 3) [sample_a1; sample_a2])
    by (repeat constructor; vm_compute; lia).
  destruct (delivered_share_bounded "config1" 3 [sample_a1; sample_a2] Hr)
    as (st & Hw & _ & Hle).
  split; [done|]. exists st. by split.
Defined.

Lemma idle_node_result_witness :
  exists attempts g1 r,
    schedule_attempts 10 (N short_params) (sim_time short_params)
      (lambda_rate short_params) sample_rng = Ret (attempts, g1) /\
    (2 < N short_params)%nat /\ Forall (uninvolved 2) attempts /\
    length attempts = 1%nat /\
    run_simulation 10 short_params "config1" sample_rng = Ret (r, g1) /\
    df_bytes_sent (df r) !! 2%nat = Some 0.
Proof.
  assert (Hgen : exists attempts g1,
            schedule_attempts 10 (N short_params) (sim_time short_params)
              (lambda_rate short_params) sample_rng = Ret (attempts, g1) /\
            Forall (uninvolved 2) attempts /\ length attempts = 1%nat).
  { eexists _, _. split; [vm_compute; reflexivity|].
    split; [|reflexivity]. repeat constructor; simpl; lia. }
  destruct Hgen as (attempts & g1 & Hgen & Hun & Hlen).
  assert (Hm : (2 < N short_params)%nat) by (simpl; lia).
  destruct (idle_node_result 10 short_params "config1" sample_rng attempts g1
              2%nat Hgen Hm Hun) as (r & Hrun & _ & Hbs & _).
  exists attempts, g1, r. split_and!; done.
Defined.

Lemma draws_consumed_witness :
  exists attempts g',
    schedule_attempts 10 3 200.0 0.02 sample_rng = Ret (attempts, g') /\
    choice_pos g' = (choice_pos sample_rng + length attempts)%nat /\
    exp_pos g' = (exp_pos sample_rng + length attempts + 3)%nat.
Proof.
  sample_schedule Hgen. rename l into attempts, r into g'.
  destruct (draws_consumed 10 3 200.0 0.02 sample_rng attempts g' Hgen)
    as (_ & _ & Hcp & Hep & _).
  exists attempts, g'.
  split_and!; [reflexivity | exact Hcp | apply Hep; reflexivity].
Defined.

Lemma sort_keeps_generation_order_witness :
  0 < 0.02 /\ (forall k, 0 <= exp_src sample_rng k) /\
  exists attempts g',
    schedule_attempts 10 3 200.0 0.02 sample_rng = Ret (attempts, g') /\
    StronglySorted time_le (by_node 0 attempts).
Proof.
  assert (Hlam : 0 < 0.02) by reflexivity.
  assert (Hsrc : forall k, 0 <= exp_src sample_rng k).
  { intros k. change (exp_src sample_rng k) with (inject_Z (Z.of_nat (S k)) / 2).
    assert (H : 0 <= inject_Z (Z.of_nat (S k))).
    { rewrite <- (Zle_Qle 0). lia. }
    apply Qle_shift_div_l; [reflexivity | lra]. }
  split; [exact Hlam|]. split; [exact Hsrc|].
  sample_schedule Hgen. rename l into attempts, r into g'.
  destruct (sort_keeps_generation_order 10 3 200.0 0.02 sample_rng attempts g'
              Hlam Hsrc Hgen) as (raw & _ & Hnode).
  destruct (Hnode 0%nat) as (_ & Hs & _).
  exists attempts, g'. split; [reflexivity | exact Hs].
Defined.


Lemma run_simulation_returns_bounded fuel p cfg g d :
  0 < lambda_rate p -> N p <> 1%nat -> 0 < d ->
  (forall k, d <= exp_src g k) ->
  sim_time p < inject_Z (Z.of_nat fuel) * (d / lambda_rate p) ->
  exists r g1,
    run_simulation fuel p cfg g = Ret (r, g1) /\ exp_src g1 = exp_src g.
Proof.
  intros Hlam HN Hd Hsrc Hfuel.
  destruct (schedule_attempts_returns fuel (N p) (sim_time p) (lambda_rate p)
              g d Hlam HN Hd Hsrc Hfuel) as (attempts & g1 & Hgen).
  destruct (run_simulation_returns fuel p cfg g attempts g1 Hgen)
    as (st & _ & _ & Hrun).
  exists (result_of p st), g1. split; [exact Hrun|].
  by destruct (schedule_attempts_cursors _ _ _ _ _ _ _ Hgen) as (E & _).
Qed.

(** With a positive rate, a node count other than one, draws bounded below
    by some [d > 0] and fuel covering the horizon, the script's loop over the
    three configurations returns. *)
Lemma run_all_returns fuel p g d :
  0 < lambda_rate p -> N p <> 1%nat -> 0 < d ->
  (forall k, d <= exp_src g k) ->
  sim_time p < inject_Z (Z.of_nat fuel) * (d / lambda_rate p) ->
  exists results g', run_all fuel p g = Ret (results, g').
Proof.
  intros Hlam HN Hd Hsrc Hfuel. unfold run_all, configs. cbn [run_configs].
  destruct (run_simulation_returns_bounded fuel p "config1" g d)
    as (r1 & g1 & -> & E1); try done.
  cbn [mbind outcome_bind].
  destruct (run_simulation_returns_bounded fuel p "config2" g1 d)
    as (r2 & g2 & -> & E2); try done.
  { intros k. rewrite E1. apply Hsrc. }
  cbn [mbind outcome_bind].
  destruct (run_simulation_returns_bounded fuel p "config3" g2 d)
    as (r3 & g3 & -> & E3); try done.
  { intros k. rewrite E2, E1. apply Hsrc. }
  cbn [mbind outcome_bind]. eauto.
Qed.

Lemma sample_rng_bounded k : 1 # 2 <= exp_src sample_rng k.
Proof.
  change (exp_src sample_rng k) with (inject_Z (Z.of_nat (S k)) / 2).
  assert (H : 1 <= inject_Z (Z.of_nat (S k))).
  { rewrite <- (Zle_Qle 1). lia. }
  apply Qle_shift_div_l; [reflexivity | lra].
Qed.

Lemma run_all_spec_witness :
  exists results g' r1,
    run_all 10 sample_params sample_rng = Ret (results, g') /\
    results !! "config1"%string = Some r1 /\
    results !! "sequential"%string = None.
Proof.
  destruct (run_all_returns 10 sample_params sample_rng (1 # 2))
    as (results & g' & Hrun).
  { reflexivity. }
  { discriminate. }
  { reflexivity. }
  { apply sample_rng_bounded. }
  { reflexivity. }
  destruct (run_all_spec 10 sample_params sample_rng results g' Hrun)
    as (r1 & r2 & r3 & g1 & g2 & _ & _ & _ & Hk1 & _ & _ & Hnone & _).
  exists results, g', r1. split_and!; [exact Hrun | exact Hk1 |].
  apply Hnone. simpl. intros [H|[H|[H|[]]]]; discriminate.
Defined.
